(** * RetirementCalculator: the calculation core of [proto1.py]

    A shallow embedding of the three computational functions of the
    program, [_generate_synthetic_mortality],
    [calculate_life_annuity_factor] and [run_simulation], and the
    properties its specification states about them; then of what
    surrounds them in the script: the form that feeds [run_simulation]
    (lines 208-240), [format_idr], and the amounts the page shows for
    a result (lines 242-333).  [load_mortality_tables] reads CSV files
    through pandas and is not modelled; its tables enter as arguments.

    Numbers.  Ages and year counts are Python [int]s and are modelled
    by [Z].  Every other scalar is a Python [float]; its value is
    modelled by a real number of [R] (the generator calls [np.exp], so
    rationals would not do).  The rounding of values is outside the
    model, and so are the infinities that [+], [*] and [/] produce
    without complaint.  What is kept of the float behaviour is what
    decides whether the program returns at all:
    - a mortality-table cell may be NaN ([pd.to_numeric(..., errors='coerce')]
      produces NaN for an unparseable cell), hence the type [entry];
    - [x ** n] raises [OverflowError] when the power is out of the
      range of the floats;
    - [x / y] raises [ZeroDivisionError] when [y] is zero as a float,
      which a real of too small a magnitude is as well (a power that
      underflows); hence the result type [outcome].
    The thresholds are those of binary64, taken on the exact value; a
    divisor that is zero only because an earlier sum was rounded
    ([1 + 1e-17] is [1.0]) is not seen by the model.

    Kinds of float.  A cell that [np.exp] computed is a [numpy.float64],
    and so is everything computed from it.  Such a scalar behaves like
    a Python float in all the program does but for one thing: dividing
    it by zero yields nan or an infinity and a warning where a Python
    float raises [ZeroDivisionError].  The model has one kind of float
    and follows the Python float.  The only division that can meet a
    [numpy.float64] is that of line 171, whose dividend is one when the
    valuation loop has added a payment weighted by such a cell, which
    takes a second pass.  So what is stated here about an exception of
    line 171 is stated for inputs whose annuity factor takes one pass,
    and what is stated about results of line 171 is stated for a
    divisor that is not zero.

    Tables.  A mortality table is a [dict] that is only ever read with
    [table.get(age, 1.0)] for an [int] age, so it is a finite map from
    [Z]; a key read from a CSV file is a float, and is found by that
    lookup exactly when it equals the age.

    Text.  [format_idr] is modelled on lists of characters; the format
    specification [,.0f] rounds the exact value of the float to the
    nearest integer, ties to even.  The argument is a float, or an
    [int] that the format converts to a float first, which changes
    nothing up to [2^53].  The reals have no negative zero, nan or
    infinity: the "-0" that Python prints for [-0.0] appears here only
    for negative amounts that round to zero, and "nan" and "inf" do
    not appear. *)

From Stdlib Require Import ZArith Reals Lra Lia List Ascii.
From stdpp Require Import base option gmap strings.
From Equations Require Import Equations.

Local Open Scope Z_scope.
Local Open Scope R_scope.

(** ** Python semantics used by the program *)

(** The exceptions the arithmetic of the program can raise. *)
Inductive exn : Type :=
| ZeroDivisionError
| OverflowError.

(** Result of running a piece of Python code: a value, or an exception
    that propagates to the caller. *)
Inductive outcome (A : Type) : Type :=
| Returned (a : A)
| Raised (e : exn).
Arguments Returned {A} a.
Arguments Raised {A} e.

#[global] Instance outcome_ret : MRet outcome := @Returned.
#[global] Instance outcome_bind : MBind outcome := fun A B k m =>
  match m with
  | Returned a => k a
  | Raised e => Raised e
  end.

(** The range of the floats (binary64, rounding to nearest): a value
    is too large for a float when it rounds to [2^1024] or beyond,
    which is from the magnitude [2^1024 - 2^970] on, and it is zero as
    a float when its magnitude is [2^-1075] or less. *)
Definition float_overflow : R := 2 ^ 1024 - 2 ^ 970.
Definition float_underflow : R := / 2 ^ 1075.

(** The value of [x ** n] for an [int] [n >= 0]; [x ** 0] is [1.0] for
    every [x]. *)
Definition power (x : R) (n : Z) : R := x ^ Z.to_nat n.

(** [x ** n] for a float [x] and an [int] [n]; the program only uses
    it with [n >= 0]. *)
Definition py_pow (x : R) (n : Z) : outcome R :=
  if Rle_dec float_overflow (Rabs (power x n)) then Raised OverflowError
  else Returned (power x n).

(** [x / y] on floats. *)
Definition py_div (x y : R) : outcome R :=
  if Rle_dec (Rabs y) float_underflow then Raised ZeroDivisionError
  else Returned (x / y).

(** [range(lo, hi)]: the integers [lo], [lo + 1], ... below [hi]. *)
Definition py_range (lo hi : Z) : list Z :=
  map (fun i : nat => (lo + Z.of_nat i)%Z) (seq 0 (Z.to_nat (hi - lo))).

(** What one pass through the body of a [for] loop asks for next. *)
Inductive flow (S : Type) : Type :=
| Continue (s : S)
| Break (s : S).
Arguments Continue {S} s.
Arguments Break {S} s.

(** [for x in xs: body] with the loop-carried variables [s]; it stops
    at the first [break] and at the first exception. *)
Fixpoint for_in {S : Type} (xs : list Z) (body : Z -> S -> outcome (flow S))
    (s : S) : outcome S :=
  match xs with
  | [] => Returned s
  | x :: xs' =>
      match body x s with
      | Returned (Continue s') => for_in xs' body s'
      | Returned (Break s') => Returned s'
      | Raised e => Raised e
      end
  end.

(** The builtin [min(a, b)]: [b] only when it is strictly smaller. *)
Definition py_min (a b : R) : R := if Rlt_dec b a then b else a.

(** ** Data model *)

(** A cell of a mortality table: a float that may be NaN. *)
Inductive entry : Type :=
| NaN
| Val (q : R).

(** A mortality table is the dict [{age: qx}]; the program passes the
    pair [(male_table, female_table)] around. *)
Abbreviation MortalityTable := (gmap Z entry).
Abbreviation MortalityTables := (gmap Z entry * gmap Z entry)%type.

(** The dict returned by [run_simulation] on success, one field per key. *)
Record ProjectionResult : Type := {
  nest_egg_needed : R;
  projected_balance : R;
  shortfall : R;
  extra_monthly_needed : R;
  future_monthly_target : R;
  years_to_go : Z;
  annuity_factor : R
}.

(** ** Mortality table provider: the synthetic generator *)

(** Body of the loop of lines 80-86. *)
Definition synthetic_body (age_offset : Z) (table : MortalityTable) (age : Z)
    : MortalityTable :=
  let effective_age := Z.max 0 (age - age_offset) in
  let qx :=
    if decide (effective_age < 30)%Z then 0.0005
    else 0.0005 * exp (0.092 * IZR (effective_age - 30)) in
  <[age := Val (py_min qx 1)]> table.

Definition _generate_synthetic_mortality (gender : string) : MortalityTable :=
  let age_offset := if decide (gender = "Female") then 5%Z else 0%Z in
  fold_left (synthetic_body age_offset) (py_range 0 121) ∅.

(** ** Annuity valuation *)

(** [pd.isna(q_x) or q_x < 0], the test of line 119. *)
Definition bad_qx (q_x : entry) : bool :=
  match q_x with
  | NaN => true
  | Val q => if Rlt_dec q 0 then true else false
  end.

(** The float held by a cell that passed the test. *)
Definition float_of (q_x : entry) : R :=
  match q_x with
  | NaN => 0
  | Val q => q
  end.

(** Lines 96-99. *)
Definition select_table (gender : string) (mortality_tables : MortalityTables)
    : MortalityTable :=
  if decide (gender = "Male") then mortality_tables.1 else mortality_tables.2.

(** Body of the loop of lines 105-123; the loop-carried variables are
    [(total_pv, prob_survival)].  Line 109 takes the power, then
    divides. *)
Definition annuity_body (retirement_age : Z) (discount_rate : R) (table : MortalityTable)
    (t : Z) (s : R * R) : outcome (flow (R * R)) :=
  let '(total_pv, prob_survival) := s in
  let current_age := (retirement_age + t)%Z in
  p ← py_pow (1 + discount_rate) t;
  v ← py_div 1 p;
  let total_pv := total_pv + prob_survival * v in
  let q_x := default (Val 1) (table !! current_age) in
  let q_x := if bad_qx q_x then 1 else float_of q_x in
  let prob_survival := prob_survival * (1 - q_x) in
  if Rlt_dec prob_survival 0.0001
  then Returned (Break (total_pv, prob_survival))
  else Returned (Continue (total_pv, prob_survival)).

Definition calculate_life_annuity_factor (retirement_age : Z) (gender : string)
    (discount_rate : R) (mortality_tables : MortalityTables) : outcome R :=
  let table := select_table gender mortality_tables in
  s ← for_in (py_range 0 (115 - retirement_age))
        (annuity_body retirement_age discount_rate table) (0, 1);
  Returned (fst s).

(** ** Projection engine *)

(** Body of the accumulation loop of lines 156-164; the loop-carried
    variables are [(projected_balance, yearly_salary)]. *)
Definition accumulation_body (total_contribution_rate investment_return salary_growth : R)
    (s : R * R) (year : Z) : R * R :=
  let '(projected_balance, yearly_salary) := s in
  let contribution := yearly_salary * total_contribution_rate in
  let projected_balance := projected_balance + contribution in
  let projected_balance := projected_balance * (1 + investment_return) in
  let yearly_salary := yearly_salary * (1 + salary_growth) in
  (projected_balance, yearly_salary).

Definition run_simulation (current_age retire_age : Z)
    (current_salary salary_growth investment_return inflation
     employer_contrib_pct personal_contrib_pct
     target_monthly_income_today_value : R)
    (gender : string) (mortality_tables : MortalityTables)
    : outcome (option ProjectionResult * string) :=
  let years_to_go := (retire_age - current_age)%Z in
  if decide (years_to_go <= 0)%Z then Returned (None, "Already Retired") else
  future_inflation_factor ← py_pow (1 + inflation) years_to_go;
  let target_annual_income_future :=
    (target_monthly_income_today_value * 12) * future_inflation_factor in
  let safe_withdrawal_rate_return := 0.04 in
  annuity_factor ← calculate_life_annuity_factor retire_age gender
                      safe_withdrawal_rate_return mortality_tables;
  let total_nest_egg_needed := target_annual_income_future * annuity_factor in
  let total_contribution_rate := employer_contrib_pct + personal_contrib_pct in
  let '(projected_balance, yearly_salary) :=
    fold_left (accumulation_body total_contribution_rate investment_return salary_growth)
      (py_range 0 years_to_go) (0, current_salary) in
  let shortfall := total_nest_egg_needed - projected_balance in
  extra_monthly_needed ←
    (if Rgt_dec shortfall 0 then
       p ← py_pow (1 + investment_return) years_to_go;
       extra_annual_needed ← py_div (shortfall * investment_return) (p - 1);
       Returned (extra_annual_needed / 12)
     else Returned 0);
  Returned (Some {| nest_egg_needed := total_nest_egg_needed;
                    projected_balance := projected_balance;
                    shortfall := shortfall;
                    extra_monthly_needed := extra_monthly_needed;
                    future_monthly_target := target_annual_income_future / 12;
                    years_to_go := years_to_go;
                    annuity_factor := annuity_factor |},
            "Success").

(** ** The specification's vocabulary *)

(** [PlanInputs] is the specification's name for the scalar arguments
    of [run_simulation], [project] its name for the function itself and
    [annuityFactor] its name for [calculate_life_annuity_factor]. *)
Record PlanInputs : Type := {
  currentAge : Z;
  retirementAge : Z;
  currentAnnualSalary : R;
  salaryGrowth : R;
  investmentReturn : R;
  inflation : R;
  employerRate : R;
  personalRate : R;
  targetMonthly : R;
  sex : string
}.

Definition project (inputs : PlanInputs) (tables : MortalityTables)
    : outcome (option ProjectionResult * string) :=
  run_simulation (currentAge inputs) (retirementAge inputs)
    (currentAnnualSalary inputs) (salaryGrowth inputs) (investmentReturn inputs)
    (inflation inputs) (employerRate inputs) (personalRate inputs)
    (targetMonthly inputs) (sex inputs) tables.

Definition annuityFactor : Z -> string -> R -> MortalityTables -> outcome R :=
  calculate_life_annuity_factor.

Definition yearsToGo (inputs : PlanInputs) : Z :=
  (retirementAge inputs - currentAge inputs)%Z.

Definition syntheticQx (gender : string) (age : Z) : option entry :=
  _generate_synthetic_mortality gender !! age.

(** The valuation loop as the specification words it: a loop over
    [t = 0, 1, 2, ...] that is left once [retireAge + t >= 115] or once
    the running survival probability is below [0.0001]. *)
Section AnnuityIteration.
Variables (retireAge : Z) (discountRate : R) (table : MortalityTable).

(** [qx] for an age: [1.0] when the age is absent, and [1.0] when the
    value found is NaN or negative. *)
Definition lookup_qx (age : Z) : R :=
  match table !! age with
  | None => 1
  | Some NaN => 1
  | Some (Val q) => if Rlt_dec q 0 then 1 else q
  end.

(** The discount factor of year [t], [1 / (1 + discountRate)^t]. *)
Definition discount_factor (t : Z) : outcome R :=
  p ← py_pow (1 + discountRate) t;
  py_div 1 p.

Equations? annuity_iteration (t : Z) (total survival : R) : outcome R
  by wf (Z.to_nat (115 - (retireAge + t))) lt :=
annuity_iteration t total survival with Z_ge_dec (retireAge + t) 115 := {
  | left _ => Returned total
  | right _ with Rlt_dec survival 0.0001 := {
    | left _ => Returned total
    | right _ with discount_factor t := {
      | Raised e => Raised e
      | Returned v =>
          annuity_iteration (t + 1) (total + survival * v)
            (survival * (1 - lookup_qx (retireAge + t))) } } }.
Proof. lia. Qed.
End AnnuityIteration.

(** The accumulation as the specification words it, and the quantities
    the specification names along the way. *)
Section Projection.
Variable inputs : PlanInputs.

(** [(balance, salary)] after the given number of whole years. *)
Fixpoint accumulation (years : nat) : R * R :=
  match years with
  | O => (0, currentAnnualSalary inputs)
  | S k =>
      let '(balance, salary) := accumulation k in
      let balance := balance + salary * (employerRate inputs + personalRate inputs) in
      let balance := balance * (1 + investmentReturn inputs) in
      let salary := salary * (1 + salaryGrowth inputs) in
      (balance, salary)
  end.

(** The contribution of year [k]: the rate applied to that year's salary. *)
Definition contribution (k : nat) : R :=
  currentAnnualSalary inputs * (1 + salaryGrowth inputs) ^ k
  * (employerRate inputs + personalRate inputs).

(** The contributions of years [0 .. n-1], that of year [k] having
    earned the returns of the years [k .. n-1]. *)
Fixpoint grown_contributions (n k : nat) : R :=
  match k with
  | O => 0
  | S k' =>
      grown_contributions n k'
      + contribution k' * (1 + investmentReturn inputs) ^ (n - k')
  end.

Definition futureAnnualIncome : R :=
  targetMonthly inputs * 12 * (1 + inflation inputs) ^ Z.to_nat (yearsToGo inputs).

Definition projectedBalance : R :=
  fst (accumulation (Z.to_nat (yearsToGo inputs))).

(** The denominator of the remediation formula. *)
Definition remediation_denominator : R :=
  (1 + investmentReturn inputs) ^ Z.to_nat (yearsToGo inputs) - 1.

(** The result record for a given annuity factor and remediation amount. *)
Definition result_for (factor extraMonthly : R) : ProjectionResult :=
  {| nest_egg_needed := futureAnnualIncome * factor;
     projected_balance := projectedBalance;
     shortfall := futureAnnualIncome * factor - projectedBalance;
     extra_monthly_needed := extraMonthly;
     future_monthly_target := futureAnnualIncome / 12;
     years_to_go := yearsToGo inputs;
     annuity_factor := factor |}.
End Projection.

(** The value the generator stores for an age: the right-hand side of
    line 86 as a function of the age. *)
Definition synthetic_value (age_offset age : Z) : R :=
  let effective_age := Z.max 0 (age - age_offset) in
  py_min (if decide (effective_age < 30)%Z then 0.0005
          else 0.0005 * exp (0.092 * IZR (effective_age - 30))) 1.

(** The invariant of the data model: every age present carries a
    probability. *)
Definition valid_table (table : MortalityTable) : Prop :=
  forall (age : Z) (e : entry),
    table !! age = Some e -> exists q : R, e = Val q /\ 0 <= q <= 1.

(** ** Sample inputs *)

(** The fallback tables of [load_mortality_tables]. *)
Definition synthetic_tables : MortalityTables :=
  (_generate_synthetic_mortality "Male", _generate_synthetic_mortality "Female").

(** The scenario of the specification's testable properties. *)
Definition scenario : PlanInputs :=
  {| currentAge := 30; retirementAge := 65;
     currentAnnualSalary := 60000000; salaryGrowth := 0.03;
     investmentReturn := 0.07; inflation := 0.025;
     employerRate := 0.05; personalRate := 0.05;
     targetMonthly := 3000000; sex := "Male" |}.

(** A pair of tables without any cell. *)
Definition no_tables : MortalityTables := (∅, ∅).

(** The scenario's amounts one year before a retirement at 114, with a
    return of exactly zero. *)
Definition flat_plan : PlanInputs :=
  {| currentAge := 113; retirementAge := 114;
     currentAnnualSalary := 60000000; salaryGrowth := 0.03;
     investmentReturn := 0; inflation := 0.025;
     employerRate := 0.05; personalRate := 0.05;
     targetMonthly := 3000000; sex := "Male" |}.

(** The scenario for a woman two years before retirement, with a
    return of exactly zero. *)
Definition flat_plan_2 : PlanInputs :=
  {| currentAge := 63; retirementAge := 65;
     currentAnnualSalary := 60000000; salaryGrowth := 0.03;
     investmentReturn := 0; inflation := 0.025;
     employerRate := 0.05; personalRate := 0.05;
     targetMonthly := 3000000; sex := "Female" |}.



(** One year of saving before a retirement at 114, in small numbers. *)
Definition last_year_plan : PlanInputs :=
  {| currentAge := 113; retirementAge := 114;
     currentAnnualSalary := 100; salaryGrowth := 0;
     investmentReturn := 0.1; inflation := 0;
     employerRate := 0.05; personalRate := 0.05;
     targetMonthly := 10; sex := "Female" |}.

(** What that plan comes to: a balance of 11 against a need of 120, and
    109 more to be saved in the year. *)
Definition last_year_result : ProjectionResult :=
  {| nest_egg_needed := 120;
     projected_balance := 11;
     shortfall := 109;
     extra_monthly_needed := 109 / 12;
     future_monthly_target := 10;
     years_to_go := 1;
     annuity_factor := 1 |}.

(** A discount rate whose square is out of the range of the floats. *)
Definition steep_rate : R := 2 ^ 700.

(** Two years of data before the horizon. *)
Definition two_year_table : MortalityTable :=
  {[ 113%Z := Val 0.5; 114%Z := Val 0.25 ]}.

(** A first year that leaves a survival probability of 0.00005. *)
Definition cutoff_table : MortalityTable :=
  {[ 100%Z := Val 0.99995; 101%Z := Val 0 ]}.

(** A NaN cell, a negative cell and, at 114, no cell. *)
Definition malformed_table : MortalityTable :=
  {[ 112%Z := NaN; 113%Z := Val (-0.2) ]}.

(** ** Quantities used to state further properties *)

(** The probability of being alive [t] years after [age], as the
    valuation loop accumulates it: the product of the [1 - qx] of the
    ages [age .. age + t - 1]. *)
Fixpoint survival (table : MortalityTable) (age : Z) (t : nat) : R :=
  match t with
  | O => 1
  | S k => survival table age k * (1 - lookup_qx table (age + Z.of_nat k))
  end.

(** The discounted survival probabilities of the years [0 .. n - 1]. *)
Fixpoint annuity_sum (table : MortalityTable) (age : Z) (d : R) (n : nat) : R :=
  match n with
  | O => 0
  | S k => annuity_sum table age d k + survival table age k * (1 / (1 + d) ^ k)
  end.



(** ** The caller: the form and the call of lines 208-240 *)

Module Form.

(** The values of the widgets, named as the script names them; the
    three amounts in percent are the widget values before the script
    divides them by 100. *)
Record values : Type := {
  gender : string;
  current_age : Z;
  retire_age : Z;
  salary_type : string;
  salary_input : Z;
  target_income : Z;
  employer_match_pct : R;
  personal_contrib_pct : R;
  invest_return_pct : R;
  salary_growth_pct : R;
  inflation_pct : R
}.

(** What the widgets allow: the options of the select box and of the
    radio buttons, the bounds of the sliders and of the number inputs. *)
Definition in_ranges (v : values) : Prop :=
  (gender v = "Male" \/ gender v = "Female")
  /\ (20 <= current_age v <= 70)%Z
  /\ (50 <= retire_age v <= 80)%Z
  /\ (salary_type v = "Monthly" \/ salary_type v = "Yearly")
  /\ (0 <= salary_input v)%Z
  /\ (0 <= target_income v)%Z
  /\ 0 <= employer_match_pct v <= 20
  /\ 0 <= personal_contrib_pct v <= 50
  /\ 1 <= invest_return_pct v <= 15
  /\ 0 <= salary_growth_pct v <= 10
  /\ 0 <= inflation_pct v <= 10.

(** Lines 223-232: the rates as fractions, the salary per year. *)
Definition plan (v : values) : PlanInputs :=
  let employer_match := employer_match_pct v / 100 in
  let personal_contrib := personal_contrib_pct v / 100 in
  let invest_return := invest_return_pct v / 100 in
  let salary_growth := salary_growth_pct v / 100 in
  let inflation := inflation_pct v / 100 in
  let annual_salary :=
    if decide (salary_type v = "Monthly") then (salary_input v * 12)%Z
    else salary_input v in
  {| currentAge := current_age v; retirementAge := retire_age v;
     currentAnnualSalary := IZR annual_salary; salaryGrowth := salary_growth;
     investmentReturn := invest_return; inflation := inflation;
     employerRate := employer_match; personalRate := personal_contrib;
     targetMonthly := IZR (target_income v); sex := gender v |}.

(** Lines 235-240: the call. *)
Definition calculation (v : values) (mortality_tables : MortalityTables)
    : outcome (option ProjectionResult * string) :=
  project (plan v) mortality_tables.

(** The form as it opens. *)
Definition defaults : values :=
  {| gender := "Male"; current_age := 30; retire_age := 65;
     salary_type := "Monthly"; salary_input := 5000000; target_income := 3000000;
     employer_match_pct := 5; personal_contrib_pct := 5;
     invest_return_pct := 7; salary_growth_pct := 3; inflation_pct := 2.5 |}.

End Form.

(** ** Currency formatting: [format_idr] *)

(** Python strings are modelled by lists of characters here, where the
    text is taken apart and put together. *)

(** The nearest integer, ties going to the even one: what the format
    type [f] with precision 0 does to the exact value of a float. *)
Definition round_half_even (x : R) : Z :=
  let n := Int_part x in
  let f := frac_part x in
  if Rlt_dec f (1 / 2) then n
  else if Rlt_dec (1 / 2) f then (n + 1)%Z
  else if Z.even n then n else (n + 1)%Z.

(** The character of a decimal digit. *)
Definition digit (d : N) : ascii := ascii_of_N (48 + d).

(** The decimal digits of a natural number, most significant first. *)
Equations? decimal (n : N) : list ascii by wf (N.to_nat n) lt :=
decimal n with decide (n < 10)%N := {
  | left _ => [digit n]
  | right _ => decimal (n / 10) ++ [digit (n mod 10)] }.
Proof.
  assert (n / 10 < n)%N by (apply N.div_lt; lia). lia.
Qed.

(** The thousands separator of the format option [,], on the digits in
    reverse: a comma after every third digit that has a digit after it. *)
Fixpoint group_reversed (reversed : list ascii) : list ascii :=
  match reversed with
  | a :: b :: c :: (_ :: _) as rest => a :: b :: c :: "," %char :: group_reversed rest
  | _ => reversed
  end.

Definition group_thousands (digits : list ascii) : list ascii :=
  rev (group_reversed (rev digits)).

(** [f"{value:,.0f}"] for a float that is a number and not the
    negative zero: sign, then the rounded magnitude in groups of three
    digits.  An [int] is converted to a float before it is formatted,
    so that [value] stands for an [int] only up to [2^53] in
    magnitude. *)
Definition format_comma_0f (value : R) : list ascii :=
  (if Rlt_dec value 0 then ["-"%char] else [])
  ++ group_thousands (decimal (Z.to_N (round_half_even (Rabs value)))).

(** [s.replace(old, new)] for one-character [old] and [new]. *)
Definition replace_char (old new : ascii) (s : list ascii) : list ascii :=
  map (fun c => if decide (c = old) then new else c) s.

Definition format_idr (value : R) : list ascii :=
  replace_char ","%char "."%char
    ("R"%char :: "p"%char :: " "%char :: format_comma_0f value).

(** The prefix of every formatted amount. *)
Definition rp : list ascii := ["R"; "p"; " "]%char.

(** The character map of the [replace] of [format_idr]. *)
Definition separate (c : ascii) : ascii :=
  if decide (c = ","%char) then "."%char else c.

(** The characters of an amount without sign: decimal digits and the
    separator. *)
Definition is_digit (c : ascii) : Prop := exists d : N, (d < 10)%N /\ c = digit d.

Definition shown (c : ascii) : Prop := is_digit c \/ c = "."%char.

Definition unsigned (s : list ascii) : Prop :=
  exists body : list ascii, s = rp ++ body /\ Forall shown body.

(** Reading a formatted amount back: the digits in order, everything
    else skipped, a minus sign after the prefix negating the value.
    The program has no such function; it serves to state that
    [format_idr] loses nothing of a whole amount. *)
Definition digit_value (c : ascii) : option N :=
  let k := N_of_ascii c in
  if decide (48 <= k < 58)%N then Some (k - 48)%N else None.

Definition read_char (acc : N) (c : ascii) : N :=
  match digit_value c with
  | Some d => (10 * acc + d)%N
  | None => acc
  end.

Definition read_digits (s : list ascii) : N := fold_left read_char s 0%N.

Definition read_idr (s : list ascii) : Z :=
  match skipn 3 s with
  | "-"%char :: rest => (- Z.of_N (read_digits rest))%Z
  | body => Z.of_N (read_digits body)
  end.

(** ** The page: the amounts shown for a result, lines 242-333 *)

Module Display.

(** Lines 248-251: the amount in the verdict. *)
Definition verdict_amount (results : ProjectionResult) : list ascii :=
  if Rle_dec (shortfall results) 0 then format_idr (Rabs (shortfall results))
  else format_idr (shortfall results).

(** Lines 267-270. *)
Definition delta_str (results : ProjectionResult) : list ascii :=
  if Rgt_dec (shortfall results) 0 then "-"%char :: format_idr (shortfall results)
  else "+"%char :: format_idr (Rabs (shortfall results)).

(** Every other text the page makes with [format_idr], in the order
    of the script: lines 249/251, 261, 274, 282 (shown only with a
    positive shortfall), 331 and 333. *)
Definition amounts (target_income : Z) (results : ProjectionResult)
    : list (list ascii) :=
  [verdict_amount results;
   format_idr (nest_egg_needed results);
   format_idr (projected_balance results)]
  ++ (if Rgt_dec (shortfall results) 0
      then [format_idr (extra_monthly_needed results)] else [])
  ++ [format_idr (IZR target_income);
      format_idr (future_monthly_target results)].

End Display.

(** Goals on quotients and remainders of integers. *)
Ltac div_lia := zify; Z.to_euclidean_division_equations; lia.

(** * Properties *)

(** ** Ranges and loops *)

Lemma py_range_nil (lo hi : Z) : (hi <= lo)%Z -> py_range lo hi = [].
Proof.
  intros Hle. unfold py_range.
  replace (Z.to_nat (hi - lo)) with 0%nat by lia. reflexivity.
Qed.

Lemma py_range_cons (lo hi : Z) :
  (lo < hi)%Z -> py_range lo hi = lo :: py_range (lo + 1) hi.
Proof.
  intros Hlt. unfold py_range.
  replace (Z.to_nat (hi - lo)) with (S (Z.to_nat (hi - (lo + 1)))) by lia.
  cbn [seq map]. f_equal; [f_equal; lia |].
  rewrite <- seq_shift, map_map.
  apply map_ext. intros i. lia.
Qed.

Lemma py_range_length (lo hi : Z) : length (py_range lo hi) = Z.to_nat (hi - lo).
Proof. unfold py_range. now rewrite length_map, length_seq. Qed.

Lemma py_range_snoc (lo : Z) (n : nat) :
  py_range lo (lo + Z.of_nat (S n)) = py_range lo (lo + Z.of_nat n) ++ [(lo + Z.of_nat n)%Z].
Proof.
  unfold py_range.
  replace (Z.to_nat (lo + Z.of_nat (S n) - lo)) with (S n) by lia.
  replace (Z.to_nat (lo + Z.of_nat n - lo)) with n by lia.
  now rewrite seq_S, map_app.
Qed.

(** ** Division and powers *)

Lemma float_overflow_IZR : float_overflow = IZR (2 ^ 1024 - 2 ^ 970).
Proof. unfold float_overflow. rewrite !pow_IZR, <- minus_IZR. reflexivity. Qed.

Lemma float_overflow_large : 2 ^ 1000 < float_overflow.
Proof.
  rewrite float_overflow_IZR, pow_IZR. apply IZR_lt. reflexivity.
Qed.

(** Half the range, a bound with room for the rounding of a power. *)
Lemma float_half_range : 2 ^ 1023 < float_overflow.
Proof.
  rewrite float_overflow_IZR, pow_IZR. apply IZR_lt. reflexivity.
Qed.

Lemma float_overflow_pos : 1 < float_overflow.
Proof.
  pose proof float_overflow_large as Hlarge.
  pose proof (pow_R1_Rle 2 1000 ltac:(lra)). lra.
Qed.

Lemma float_underflow_pos : 0 < float_underflow.
Proof. unfold float_underflow. apply Rinv_0_lt_compat, pow_lt. lra. Qed.

Lemma float_underflow_small : float_underflow < 0.0001.
Proof.
  unfold float_underflow.
  assert (H14 : 2 ^ 14 <= 2 ^ 1075) by (apply Rle_pow; [lra | lia]).
  assert (H : 10000 < 2 ^ 1075) by (cbn [pow] in H14; lra).
  replace 0.0001 with (/ 10000) by lra.
  apply Rinv_lt_contravar; [|exact H].
  apply Rmult_lt_0_compat; lra.
Qed.

Lemma py_div_defined (x y : R) :
  float_underflow < Rabs y -> py_div x y = Returned (x / y).
Proof.
  intros Hy. unfold py_div.
  destruct (Rle_dec (Rabs y) float_underflow); [lra | reflexivity].
Qed.

Lemma py_div_zero (x y : R) :
  Rabs y <= float_underflow -> py_div x y = Raised ZeroDivisionError.
Proof.
  intros Hy. unfold py_div.
  destruct (Rle_dec (Rabs y) float_underflow); [reflexivity | contradiction].
Qed.

Lemma py_div_0 (x : R) : py_div x 0 = Raised ZeroDivisionError.
Proof.
  apply py_div_zero. rewrite Rabs_R0. apply Rlt_le, float_underflow_pos.
Qed.

Lemma py_div_returned (x y q : R) :
  py_div x y = Returned q -> float_underflow < Rabs y /\ y <> 0 /\ q = x / y.
Proof.
  unfold py_div. destruct (Rle_dec (Rabs y) float_underflow) as [|Hy]; [discriminate|].
  intros [= <-]. pose proof float_underflow_pos as Hpos.
  split; [lra|]. split; [|reflexivity].
  intros ->. rewrite Rabs_R0 in Hy. lra.
Qed.

Lemma py_div_raised (x y : R) (e : exn) :
  py_div x y = Raised e -> e = ZeroDivisionError /\ Rabs y <= float_underflow.
Proof.
  unfold py_div. destruct (Rle_dec (Rabs y) float_underflow); [|discriminate].
  intros [= <-]. auto.
Qed.

Lemma power_0 (x : R) : power x 0 = 1.
Proof. reflexivity. Qed.

Lemma power_1 (x : R) : power x 1 = x.
Proof. unfold power. change (Z.to_nat 1) with 1%nat. apply pow_1. Qed.

Lemma power_pos (x : R) (n : Z) : 0 < x -> 0 < power x n.
Proof. intros Hx. unfold power. now apply pow_lt. Qed.

Lemma power_ge_1 (x : R) (n : Z) : 1 <= x -> 1 <= power x n.
Proof. intros Hx. unfold power. now apply pow_R1_Rle. Qed.

(** Powers of a base of at least 1 grow with the exponent. *)
Lemma power_mono (x : R) (m n : Z) :
  1 <= x -> (m <= n)%Z -> power x m <= power x n.
Proof. intros Hx Hmn. unfold power. apply Rle_pow; [exact Hx | lia]. Qed.

(** A base of at most 2 stays in range for a thousand years. *)
Lemma power_in_range (x : R) (n : Z) :
  0 <= x <= 2 -> (n <= 1000)%Z -> Rabs (power x n) < float_overflow.
Proof.
  intros Hx Hn. unfold power.
  assert (H0 : 0 <= x ^ Z.to_nat n) by (apply pow_le; lra).
  rewrite Rabs_right by lra.
  assert (H1 : x ^ Z.to_nat n <= 2 ^ Z.to_nat n) by (apply pow_incr; lra).
  assert (H2 : 2 ^ Z.to_nat n <= 2 ^ 1000) by (apply Rle_pow; [lra | lia]).
  pose proof float_overflow_large. lra.
Qed.

Lemma py_pow_defined (x : R) (n : Z) :
  Rabs (power x n) < float_overflow -> py_pow x n = Returned (power x n).
Proof.
  intros Hp. unfold py_pow.
  destruct (Rle_dec float_overflow (Rabs (power x n))); [lra | reflexivity].
Qed.

Lemma py_pow_overflow (x : R) (n : Z) :
  float_overflow <= Rabs (power x n) -> py_pow x n = Raised OverflowError.
Proof.
  intros Hp. unfold py_pow.
  destruct (Rle_dec float_overflow (Rabs (power x n))); [reflexivity | contradiction].
Qed.

Lemma py_pow_returned (x : R) (n : Z) (p : R) :
  py_pow x n = Returned p -> p = power x n /\ Rabs (power x n) < float_overflow.
Proof.
  unfold py_pow. destruct (Rle_dec float_overflow (Rabs (power x n))); [discriminate|].
  intros [= <-]. split; [reflexivity | lra].
Qed.

Lemma py_pow_raised (x : R) (n : Z) (e : exn) :
  py_pow x n = Raised e -> e = OverflowError /\ float_overflow <= Rabs (power x n).
Proof.
  unfold py_pow. destruct (Rle_dec float_overflow (Rabs (power x n))); [|discriminate].
  intros [= <-]. auto.
Qed.

Lemma py_pow_0 (x : R) : py_pow x 0 = Returned 1.
Proof.
  rewrite py_pow_defined; [reflexivity|].
  rewrite power_0, Rabs_R1. apply float_overflow_pos.
Qed.

(** *** The discount factor *)

(** The discount factor is returned when the power is a float that is
    neither out of range nor zero. *)
Lemma discount_factor_defined (d : R) (t : Z) :
  float_underflow < Rabs (power (1 + d) t) < float_overflow ->
  discount_factor d t = Returned (1 / power (1 + d) t).
Proof.
  intros [Hlo Hhi]. unfold discount_factor.
  rewrite py_pow_defined by assumption. cbn [mbind outcome_bind].
  now apply py_div_defined.
Qed.

Lemma discount_factor_returned (d : R) (t : Z) (v : R) :
  discount_factor d t = Returned v ->
  v = 1 / power (1 + d) t
  /\ float_underflow < Rabs (power (1 + d) t) < float_overflow.
Proof.
  unfold discount_factor. destruct (py_pow (1 + d) t) as [p|e] eqn:Hp; [|discriminate].
  apply py_pow_returned in Hp as [-> Hhi]. cbn [mbind outcome_bind].
  intros Hdiv. apply py_div_returned in Hdiv as (Hlo & _ & ->). auto.
Qed.

(** The first payment is never discounted. *)
Lemma discount_factor_0 (d : R) : discount_factor d 0 = Returned 1.
Proof.
  rewrite discount_factor_defined.
  - rewrite power_0. f_equal. lra.
  - rewrite power_0, Rabs_R1.
    pose proof float_underflow_small. pose proof float_overflow_pos. lra.
Qed.

(** With a rate that is not negative the factor is returned as long as
    the power is in range, and it is at most 1. *)
Lemma discount_defined (d : R) (t : Z) :
  0 <= d -> power (1 + d) t < float_overflow ->
  discount_factor d t = Returned (1 / power (1 + d) t)
  /\ 0 < 1 / power (1 + d) t <= 1.
Proof.
  intros Hd Hhi.
  assert (H1 : 1 <= power (1 + d) t) by (apply power_ge_1; lra).
  split.
  - apply discount_factor_defined. rewrite Rabs_right by lra.
    pose proof float_underflow_small. lra.
  - split; [apply Rdiv_lt_0_compat; lra|].
    assert (Hinv : / power (1 + d) t <= / 1) by (apply Rinv_le_contravar; lra).
    rewrite Rinv_1 in Hinv. unfold Rdiv. lra.
Qed.

Lemma discount_pos (d : R) (t : Z) : 0 < 1 + d -> 0 < 1 / power (1 + d) t.
Proof.
  intros Hd. pose proof (power_pos (1 + d) t Hd). apply Rdiv_lt_0_compat; lra.
Qed.

Lemma discount_antitone (d1 d2 : R) (t : Z) :
  0 < 1 + d1 -> d1 <= d2 -> 1 / power (1 + d2) t <= 1 / power (1 + d1) t.
Proof.
  intros H1 H12. unfold power.
  assert (Hp1 : 0 < (1 + d1) ^ Z.to_nat t) by (apply pow_lt; lra).
  assert (Hle : (1 + d1) ^ Z.to_nat t <= (1 + d2) ^ Z.to_nat t)
    by (apply pow_incr; lra).
  unfold Rdiv. rewrite !Rmult_1_l. apply Rinv_le_contravar; lra.
Qed.

(** ** The synthetic table *)

Lemma py_min_Rmin (a b : R) : py_min a b = Rmin a b.
Proof.
  unfold py_min, Rmin. destruct (Rlt_dec b a), (Rle_dec a b); lra.
Qed.

Lemma py_range_elem_of (lo hi a : Z) : a ∈ py_range lo hi <-> (lo <= a < hi)%Z.
Proof.
  rewrite list_elem_of_In. unfold py_range. rewrite in_map_iff. split.
  - intros (i & <- & Hi). apply in_seq in Hi. lia.
  - intros Ha. exists (Z.to_nat (a - lo)). split; [lia|]. apply in_seq. lia.
Qed.

(** Each age of the range ends up with its own value, whatever the
    order of the insertions; the other keys are left alone. *)
Lemma synthetic_fold_lookup (age_offset : Z) (ages : list Z) :
  forall (table : MortalityTable) (a : Z),
    fold_left (synthetic_body age_offset) ages table !! a
    = if decide (a ∈ ages) then Some (Val (synthetic_value age_offset a))
      else table !! a.
Proof.
  induction ages as [|x ages IH]; intros table a; cbn [fold_left].
  - destruct (decide (a ∈ [])) as [Hin|]; [|reflexivity].
    now apply elem_of_nil in Hin.
  - rewrite IH. change (synthetic_body age_offset table x)
      with (<[x := Val (synthetic_value age_offset x)]> table).
    destruct (decide (a ∈ ages)) as [Hin|Hout].
    + destruct (decide (a ∈ x :: ages)) as [|Hno]; [reflexivity|].
      exfalso. apply Hno. now right.
    + destruct (decide (x = a)) as [->|Hne].
      * rewrite lookup_insert_eq.
        destruct (decide (a ∈ a :: ages)) as [|Hno]; [reflexivity|].
        exfalso. apply Hno. now left.
      * rewrite lookup_insert_ne by assumption.
        destruct (decide (a ∈ x :: ages)) as [Hin|]; [|reflexivity].
        apply elem_of_cons in Hin as [->|Hin]; contradiction.
Qed.

Lemma synthetic_lookup (gender : string) (a : Z) :
  (0 <= a <= 120)%Z ->
  syntheticQx gender a
  = Some (Val (synthetic_value (if decide (gender = "Female") then 5 else 0) a)).
Proof.
  intros Ha. unfold syntheticQx, _generate_synthetic_mortality.
  rewrite synthetic_fold_lookup.
  destruct (decide (a ∈ py_range 0 121)) as [|Hno]; [reflexivity|].
  exfalso. apply Hno, py_range_elem_of. lia.
Qed.

Lemma synthetic_absent (gender : string) (a : Z) :
  (a < 0 \/ 120 < a)%Z -> syntheticQx gender a = None.
Proof.
  intros Ha. unfold syntheticQx, _generate_synthetic_mortality.
  rewrite synthetic_fold_lookup.
  destruct (decide (a ∈ py_range 0 121)) as [Hin|]; [|apply lookup_empty].
  apply py_range_elem_of in Hin. lia.
Qed.

Lemma synthetic_value_young (age_offset a : Z) :
  (Z.max 0 (a - age_offset) < 30)%Z -> synthetic_value age_offset a = 0.0005.
Proof.
  intros Hy. unfold synthetic_value.
  destruct (decide (Z.max 0 (a - age_offset) < 30)%Z); [|contradiction].
  rewrite py_min_Rmin. apply Rmin_left. lra.
Qed.

Lemma synthetic_value_old (age_offset a : Z) :
  ~ (Z.max 0 (a - age_offset) < 30)%Z ->
  synthetic_value age_offset a
  = Rmin (0.0005 * exp (0.092 * IZR (Z.max 0 (a - age_offset) - 30))) 1.
Proof.
  intros Ho. unfold synthetic_value.
  destruct (decide (Z.max 0 (a - age_offset) < 30)%Z); [contradiction|].
  apply py_min_Rmin.
Qed.

Lemma exp_below_2 (x : R) : x <= 2 -> exp x <= 9.
Proof.
  intros Hx. assert (H2 : exp 2 <= 9).
  { replace 2 with (1 + 1) by lra. rewrite exp_plus.
    pose proof exp_le_3. pose proof (exp_pos 1). nra. }
  destruct (Rle_lt_or_eq_dec x 2 Hx) as [Hlt| ->]; [|assumption].
  pose proof (exp_increasing x 2 Hlt). lra.
Qed.

Lemma synthetic_value_bounds (age_offset a : Z) :
  0 <= synthetic_value age_offset a <= 1.
Proof.
  unfold synthetic_value. rewrite py_min_Rmin.
  set (qx := if decide _ then _ else _).
  assert (Hqx : 0 <= qx).
  { subst qx. destruct (decide _); [lra|].
    pose proof (exp_pos (0.092 * IZR (Z.max 0 (a - age_offset) - 30))). lra. }
  split; [apply Rmin_glb; lra | apply Rmin_r].
Qed.

(** The generated tables satisfy the invariant of the data model. *)
Lemma synthetic_table_valid (gender : string) :
  valid_table (_generate_synthetic_mortality gender).
Proof.
  intros age e Hlook. fold (syntheticQx gender age) in Hlook.
  destruct (Z_le_dec 0 age) as [H0|H0]; [destruct (Z_le_dec age 120) as [H1|H1]|].
  - rewrite synthetic_lookup in Hlook by lia. injection Hlook as <-.
    eexists. split; [reflexivity | apply synthetic_value_bounds].
  - rewrite synthetic_absent in Hlook by lia. discriminate.
  - rewrite synthetic_absent in Hlook by lia. discriminate.
Qed.

(** ** The valuation loop *)

Section AnnuityLoop.
Variables (retirement_age : Z) (table : MortalityTable).

Lemma lookup_qx_checked (age : Z) :
  (let q_x := default (Val 1) (table !! age) in
   if bad_qx q_x then 1 else float_of q_x) = lookup_qx table age.
Proof.
  unfold lookup_qx. destruct (table !! age) as [[|q]|]; cbn.
  - reflexivity.
  - destruct (Rlt_dec q 0); reflexivity.
  - destruct (Rlt_dec 1 0); [lra | reflexivity].
Qed.

Lemma lookup_qx_nonneg (age : Z) : 0 <= lookup_qx table age.
Proof.
  unfold lookup_qx. destruct (table !! age) as [[|q]|]; try lra.
  destruct (Rlt_dec q 0); lra.
Qed.

(** One pass through the loop body, for any discount rate. *)
Lemma annuity_body_eq (d : R) (t : Z) (total_pv prob_survival : R) :
  annuity_body retirement_age d table t (total_pv, prob_survival) =
  v ← discount_factor d t;
  let s' := (total_pv + prob_survival * v,
             prob_survival * (1 - lookup_qx table (retirement_age + t))) in
  if Rlt_dec (snd s') 0.0001 then Returned (Break s') else Returned (Continue s').
Proof.
  unfold annuity_body, discount_factor.
  destruct (py_pow (1 + d) t) as [p|e]; cbn [mbind outcome_bind]; [|reflexivity].
  destruct (py_div 1 p) as [v|e]; cbn [mbind outcome_bind]; [|reflexivity].
  pose proof (lookup_qx_checked (retirement_age + t)) as Hq. cbn in Hq. rewrite Hq.
  reflexivity.
Qed.

(** A pass whose discount factor is returned. *)
Lemma annuity_body_defined (d : R) (t : Z) (total_pv prob_survival v : R) :
  discount_factor d t = Returned v ->
  let s' := (total_pv + prob_survival * v,
             prob_survival * (1 - lookup_qx table (retirement_age + t))) in
  annuity_body retirement_age d table t (total_pv, prob_survival) =
  if Rlt_dec (snd s') 0.0001 then Returned (Break s') else Returned (Continue s').
Proof. intros Hv. rewrite annuity_body_eq, Hv. reflexivity. Qed.

(** The total never decreases along a run that returns. *)
Lemma annuity_loop_increasing (d : R) :
  0 < 1 + d ->
  forall (ts : list Z) (total_pv prob_survival : R) (s' : R * R),
    0 <= prob_survival ->
    for_in ts (annuity_body retirement_age d table) (total_pv, prob_survival)
      = Returned s' ->
    total_pv <= fst s'.
Proof.
  intros Hd ts. induction ts as [|t ts IH]; intros total_pv prob_survival s' Hs.
  - intros [= <-]. cbn. lra.
  - cbn [for_in]. rewrite annuity_body_eq.
    destruct (discount_factor d t) as [v|e] eqn:Hv; cbn [mbind outcome_bind];
      [|discriminate].
    apply discount_factor_returned in Hv as [-> _].
    pose proof (discount_pos d t Hd) as Hv.
    pose proof (lookup_qx_nonneg (retirement_age + t)) as Hq.
    assert (Hadd : 0 <= prob_survival * (1 / power (1 + d) t))
      by (apply Rmult_le_pos; lra).
    cbn [snd]. destruct (Rlt_dec _ 0.0001) as [Hcut|Hgo].
    + intros [= <-]. cbn [fst]. lra.
    + intros Hrun. apply IH in Hrun; lra.
Qed.

(** With a rate that is not negative and powers in range the loop
    returns, and each pass adds at most one. *)
Lemma annuity_loop_returns (d : R) :
  0 <= d ->
  forall (ts : list Z) (total_pv prob_survival : R),
    Forall (fun t => power (1 + d) t < float_overflow) ts ->
    0 <= prob_survival ->
    exists s' : R * R,
      for_in ts (annuity_body retirement_age d table) (total_pv, prob_survival)
        = Returned s'
      /\ total_pv <= fst s'
      /\ (prob_survival <= 1 -> fst s' <= total_pv + INR (length ts)).
Proof.
  intros Hd ts. induction ts as [|t ts IH]; intros total_pv prob_survival Hts Hs.
  - exists (total_pv, prob_survival). cbn. repeat split; try lra.
  - inversion Hts as [|? ? Ht Hts']; subst.
    destruct (discount_defined d t Hd Ht) as [Hv Hv1].
    cbn [for_in length]. rewrite (annuity_body_defined d t _ _ _ Hv).
    pose proof (lookup_qx_nonneg (retirement_age + t)) as Hq.
    pose proof (pos_INR (length ts)) as Hlen.
    set (v := 1 / power (1 + d) t) in *.
    set (q := lookup_qx table (retirement_age + t)) in *.
    assert (Hadd : 0 <= prob_survival * v) by (apply Rmult_le_pos; lra).
    assert (Hub : prob_survival <= 1 -> prob_survival * v <= 1).
    { intros H1. replace 1 with (1 * 1) by lra. apply Rmult_le_compat; lra. }
    rewrite S_INR. cbn [snd].
    destruct (Rlt_dec (prob_survival * (1 - q)) 0.0001) as [Hcut|Hgo].
    + eexists. split; [reflexivity|]. cbn [fst]. split; [lra|].
      intros H1. specialize (Hub H1). lra.
    + destruct (IH (total_pv + prob_survival * v) (prob_survival * (1 - q)))
        as (s' & Hrun & Hlo & Hhi); [assumption | lra |].
      exists s'. split; [exact Hrun|]. split; [lra|].
      intros H1. specialize (Hub H1).
      assert (Hs1 : prob_survival * (1 - q) <= 1).
      { assert (prob_survival * q >= 0) by (apply Rle_ge, Rmult_le_pos; lra). lra. }
      specialize (Hhi Hs1). lra.
Qed.
End AnnuityLoop.

(** The years of the loop, and the largest power it takes. *)
Lemma annuity_years_in_range (retirement_age : Z) (d : R) :
  0 <= d ->
  power (1 + d) (114 - retirement_age) < float_overflow ->
  Forall (fun t => power (1 + d) t < float_overflow)
    (py_range 0 (115 - retirement_age)).
Proof.
  intros Hd Hmax. apply Forall_forall. intros t Ht.
  apply py_range_elem_of in Ht.
  assert (power (1 + d) t <= power (1 + d) (114 - retirement_age))
    by (apply power_mono; [lra | lia]).
  lra.
Qed.

(** ** Single passes, and the factor on small tables *)

Lemma lookup_qx_absent (table : MortalityTable) (age : Z) :
  table !! age = None -> lookup_qx table age = 1.
Proof. intros H. unfold lookup_qx. now rewrite H. Qed.

Lemma lookup_qx_nan (table : MortalityTable) (age : Z) :
  table !! age = Some NaN -> lookup_qx table age = 1.
Proof. intros H. unfold lookup_qx. now rewrite H. Qed.

Lemma lookup_qx_negative (table : MortalityTable) (age : Z) (q : R) :
  table !! age = Some (Val q) -> q < 0 -> lookup_qx table age = 1.
Proof.
  intros H Hq. unfold lookup_qx. rewrite H.
  destruct (Rlt_dec q 0); [reflexivity | contradiction].
Qed.

Lemma lookup_qx_value (table : MortalityTable) (age : Z) (q : R) :
  table !! age = Some (Val q) -> 0 <= q -> lookup_qx table age = q.
Proof.
  intros H Hq. unfold lookup_qx. rewrite H.
  destruct (Rlt_dec q 0); [lra | reflexivity].
Qed.

(** The second discount factor. *)
Lemma discount_factor_1 (d : R) :
  float_underflow < Rabs (1 + d) < float_overflow ->
  discount_factor d 1 = Returned (1 / (1 + d)).
Proof.
  intros Hd. rewrite discount_factor_defined; rewrite power_1; [reflexivity | exact Hd].
Qed.

Lemma discount_factor_1_small (d : R) :
  0 <= d <= 1 -> discount_factor d 1 = Returned (1 / (1 + d)).
Proof.
  intros Hd. apply discount_factor_1. rewrite Rabs_right by lra.
  pose proof float_underflow_small. pose proof float_overflow_large.
  pose proof (Rle_pow 2 1 1000 ltac:(lra) ltac:(lia)) as Hpow.
  rewrite pow_1 in Hpow. lra.
Qed.

(** At a rate of -1 it is [1 / 0.0]. *)
Lemma discount_factor_minus_one : discount_factor (-1) 1 = Raised ZeroDivisionError.
Proof.
  unfold discount_factor. rewrite py_pow_defined.
  - cbn [mbind outcome_bind]. rewrite power_1.
    replace (1 + -1) with 0 by lra. apply py_div_0.
  - rewrite power_1. replace (1 + -1) with 0 by lra. rewrite Rabs_R0.
    pose proof float_overflow_pos. lra.
Qed.

Lemma annuity_pass_continue (ra : Z) (d : R) (table : MortalityTable) (t : Z)
    (ts : list Z) (total_pv prob_survival v q : R) :
  discount_factor d t = Returned v ->
  lookup_qx table (ra + t) = q ->
  ~ prob_survival * (1 - q) < 0.0001 ->
  for_in (t :: ts) (annuity_body ra d table) (total_pv, prob_survival)
  = for_in ts (annuity_body ra d table)
      (total_pv + prob_survival * v, prob_survival * (1 - q)).
Proof.
  intros Hv <- Hgo. cbn [for_in].
  rewrite (annuity_body_defined ra table d t _ _ v Hv). cbn [snd].
  destruct (Rlt_dec _ 0.0001); [contradiction | reflexivity].
Qed.

Lemma annuity_pass_break (ra : Z) (d : R) (table : MortalityTable) (t : Z)
    (ts : list Z) (total_pv prob_survival v q : R) :
  discount_factor d t = Returned v ->
  lookup_qx table (ra + t) = q ->
  prob_survival * (1 - q) < 0.0001 ->
  for_in (t :: ts) (annuity_body ra d table) (total_pv, prob_survival)
  = Returned (total_pv + prob_survival * v, prob_survival * (1 - q)).
Proof.
  intros Hv <- Hcut. cbn [for_in].
  rewrite (annuity_body_defined ra table d t _ _ v Hv). cbn [snd].
  destruct (Rlt_dec _ 0.0001); [reflexivity | contradiction].
Qed.

Lemma annuity_pass_raise (ra : Z) (d : R) (table : MortalityTable) (t : Z)
    (ts : list Z) (s : R * R) (e : exn) :
  discount_factor d t = Raised e ->
  for_in (t :: ts) (annuity_body ra d table) s = Raised e.
Proof.
  intros Hv. destruct s as [total_pv prob_survival]. cbn [for_in].
  rewrite annuity_body_eq, Hv. reflexivity.
Qed.

(** Retiring at 113 on [two_year_table]: the payment at 113 is certain,
    the one at 114 is received with probability 0.5 and discounted
    once; then the horizon is reached. *)
Lemma annuity_two_years_at (d : R) :
  0 <= d <= 1 ->
  calculate_life_annuity_factor 113 "Male" d (two_year_table, ∅)
  = Returned (1 + 0.5 * (1 / (1 + d))).
Proof.
  intros Hd. unfold calculate_life_annuity_factor.
  change (py_range 0 (115 - 113)) with [0%Z; 1%Z].
  change (select_table "Male" (two_year_table, ∅)) with two_year_table.
  rewrite (annuity_pass_continue 113 d two_year_table 0 _ 0 1 1 0.5);
    [| apply discount_factor_0
     | apply lookup_qx_value; [reflexivity | lra] | lra ].
  rewrite (annuity_pass_continue 113 d two_year_table 1 _ _ _ (1 / (1 + d)) 0.25);
    [| now apply discount_factor_1_small
     | apply lookup_qx_value; [reflexivity | lra] | lra ].
  cbn. f_equal. lra.
Qed.

Example annuity_two_years :
  calculate_life_annuity_factor 113 "Male" 0.04 (two_year_table, ∅)
  = Returned (1 + 0.5 * (1 / 1.04)).
Proof.
  rewrite annuity_two_years_at by lra. do 2 f_equal. f_equal. lra.
Qed.

(** Retiring at 100 on [cutoff_table]: after the first year the survival
    probability is 0.00005, the loop is left, and the year 101, which
    nobody would die in, adds nothing. *)
Example annuity_cutoff :
  calculate_life_annuity_factor 100 "Female" 0.04 (∅, cutoff_table) = Returned 1.
Proof.
  unfold calculate_life_annuity_factor.
  rewrite py_range_cons by lia.
  change (select_table "Female" (∅, cutoff_table)) with cutoff_table.
  rewrite (annuity_pass_break 100 0.04 cutoff_table 0 _ 0 1 1 0.99995);
    [| apply discount_factor_0
     | apply lookup_qx_value; [reflexivity | lra] | lra ].
  cbn. f_equal. lra.
Qed.

(** A NaN cell, a negative cell and a missing cell all count as certain
    death: the factor is the single payment at retirement. *)
Example annuity_malformed :
  calculate_life_annuity_factor 112 "Male" 0.04 (malformed_table, ∅) = Returned 1
  /\ calculate_life_annuity_factor 113 "Male" 0.04 (malformed_table, ∅) = Returned 1
  /\ calculate_life_annuity_factor 114 "Male" 0.04 (malformed_table, ∅) = Returned 1.
Proof.
  unfold calculate_life_annuity_factor.
  change (select_table "Male" (malformed_table, ∅)) with malformed_table.
  repeat split; rewrite py_range_cons by lia.
  - rewrite (annuity_pass_break 112 0.04 malformed_table 0 _ 0 1 1 1);
      [| apply discount_factor_0 | apply lookup_qx_nan; reflexivity | lra ].
    cbn. f_equal. lra.
  - rewrite (annuity_pass_break 113 0.04 malformed_table 0 _ 0 1 1 1);
      [| apply discount_factor_0
       | apply (lookup_qx_negative _ _ (-0.2)); [reflexivity | lra] | lra ].
    cbn. f_equal. lra.
  - rewrite (annuity_pass_break 114 0.04 malformed_table 0 _ 0 1 1 1);
      [| apply discount_factor_0 | apply lookup_qx_absent; reflexivity | lra ].
    cbn. f_equal. lra.
Qed.

(** A discount rate of -1 makes the second discount factor [1 / 0.0]. *)
Example annuity_rate_minus_one :
  calculate_life_annuity_factor 113 "Male" (-1) (two_year_table, ∅)
  = Raised ZeroDivisionError.
Proof.
  unfold calculate_life_annuity_factor.
  change (py_range 0 (115 - 113)) with [0%Z; 1%Z].
  change (select_table "Male" (two_year_table, ∅)) with two_year_table.
  rewrite (annuity_pass_continue 113 (-1) two_year_table 0 _ 0 1 1 0.5);
    [| apply discount_factor_0
     | apply lookup_qx_value; [reflexivity | lra] | lra ].
  rewrite (annuity_pass_raise _ _ _ _ _ _ ZeroDivisionError); [reflexivity|].
  apply discount_factor_minus_one.
Qed.

(** Retiring at 114 leaves one payment to value, whatever the tables
    and the rate. *)
Lemma annuity_factor_last_year (gender : string) (d : R) (tables : MortalityTables) :
  calculate_life_annuity_factor 114 gender d tables = Returned 1.
Proof.
  unfold calculate_life_annuity_factor. change (py_range 0 (115 - 114)) with [0%Z].
  cbn [for_in]. rewrite annuity_body_eq, discount_factor_0.
  cbn [mbind outcome_bind snd]. destruct (Rlt_dec _ 0.0001); cbn; f_equal; lra.
Qed.

(** ** The annuity factor *)

Lemma annuity_factor_horizon (retirement_age : Z) (gender : string) (d : R)
    (tables : MortalityTables) :
  (115 <= retirement_age)%Z ->
  calculate_life_annuity_factor retirement_age gender d tables = Returned 0.
Proof.
  intros Hage. unfold calculate_life_annuity_factor.
  rewrite py_range_nil by lia. reflexivity.
Qed.

(** A factor that is returned for a rate above -1 is not negative, and
    at least the first payment below the horizon. *)
Lemma annuity_factor_returned (retirement_age : Z) (gender : string) (d : R)
    (tables : MortalityTables) (f : R) :
  0 < 1 + d ->
  calculate_life_annuity_factor retirement_age gender d tables = Returned f ->
  0 <= f /\ ((retirement_age < 115)%Z -> 1 <= f).
Proof.
  intros Hd. unfold calculate_life_annuity_factor.
  set (table := select_table gender tables).
  destruct (for_in _ _ _) as [s'|e] eqn:Hrun; cbn [mbind outcome_bind]; [|discriminate].
  intros [= <-]. split.
  - apply (annuity_loop_increasing retirement_age table d Hd) in Hrun; [exact Hrun | lra].
  - intros Hage. revert Hrun. rewrite py_range_cons by lia.
    cbn [for_in]. rewrite annuity_body_eq, discount_factor_0.
    cbn [mbind outcome_bind snd]. rewrite !Rmult_1_l, Rplus_0_l.
    pose proof (lookup_qx_nonneg table (retirement_age + 0)) as Hq.
    destruct (Rlt_dec _ 0.0001) as [Hcut|Hgo].
    + intros [= <-]. cbn. lra.
    + intros Hrun.
      apply (annuity_loop_increasing retirement_age table d Hd) in Hrun; lra.
Qed.

(** With a rate that is not negative and whose largest power is in
    range, the factor is returned, and it is at most the number of
    years to the horizon. *)
Lemma annuity_factor_returns (retirement_age : Z) (gender : string) (d : R)
    (tables : MortalityTables) :
  0 <= d ->
  power (1 + d) (114 - retirement_age) < float_overflow ->
  exists f : R,
    calculate_life_annuity_factor retirement_age gender d tables = Returned f
    /\ 0 <= f
    /\ ((retirement_age < 115)%Z -> 1 <= f)
    /\ f <= IZR (Z.max 0 (115 - retirement_age)).
Proof.
  intros Hd Hmax.
  pose proof (annuity_years_in_range retirement_age d Hd Hmax) as Hts.
  destruct (annuity_loop_returns retirement_age (select_table gender tables) d Hd
              (py_range 0 (115 - retirement_age)) 0 1 Hts)
    as (s' & Hrun & _ & Hhi); [lra|].
  assert (Hf : calculate_life_annuity_factor retirement_age gender d tables
               = Returned (fst s')).
  { unfold calculate_life_annuity_factor. rewrite Hrun. reflexivity. }
  exists (fst s'). split; [exact Hf|].
  destruct (annuity_factor_returned retirement_age gender d tables (fst s'))
    as [H0 H1]; [lra | exact Hf |].
  split; [exact H0|]. split; [exact H1|].
  specialize (Hhi ltac:(lra)). rewrite py_range_length in Hhi.
  rewrite INR_IZR_INZ in Hhi.
  replace (Z.of_nat (Z.to_nat (115 - retirement_age - 0)))
    with (Z.max 0 (115 - retirement_age)) in Hhi by lia.
  lra.
Qed.

(** A rate of at most 1 stays in range for a thousand years. *)
Lemma annuity_rate_in_range (retirement_age : Z) (d : R) :
  0 <= d <= 1 -> (-886 <= retirement_age)%Z ->
  power (1 + d) (114 - retirement_age) < float_overflow.
Proof.
  intros Hd Hage.
  pose proof (power_in_range (1 + d) (114 - retirement_age)) as Hr.
  pose proof (power_pos (1 + d) (114 - retirement_age)) as Hp.
  rewrite Rabs_right in Hr by (apply Rle_ge, Rlt_le, Hp; lra).
  apply Hr; [lra | lia].
Qed.

(** A higher discount rate gives a smaller total: both runs see the
    same survival probabilities, hence take the same passes. *)
Lemma annuity_loop_antitone (retirement_age : Z) (table : MortalityTable) (d1 d2 : R) :
  0 < 1 + d1 -> d1 <= d2 ->
  forall (ts : list Z) (total1 total2 prob_survival : R) (s1 s2 : R * R),
    0 <= prob_survival -> total2 <= total1 ->
    for_in ts (annuity_body retirement_age d1 table) (total1, prob_survival) = Returned s1 ->
    for_in ts (annuity_body retirement_age d2 table) (total2, prob_survival) = Returned s2 ->
    fst s2 <= fst s1.
Proof.
  intros H1 H12 ts.
  induction ts as [|t ts IH]; intros total1 total2 prob_survival s1 s2 Hs Htot.
  - intros [= <-] [= <-]. exact Htot.
  - cbn [for_in]. rewrite !annuity_body_eq.
    destruct (discount_factor d1 t) as [v1|e1] eqn:Hv1; cbn [mbind outcome_bind];
      [|discriminate].
    destruct (discount_factor d2 t) as [v2|e2] eqn:Hv2; cbn [mbind outcome_bind];
      [|discriminate].
    apply discount_factor_returned in Hv1 as [-> _].
    apply discount_factor_returned in Hv2 as [-> _].
    pose proof (discount_antitone d1 d2 t H1 H12) as Hv.
    assert (Hadd : prob_survival * (1 / power (1 + d2) t)
                   <= prob_survival * (1 / power (1 + d1) t))
      by (apply Rmult_le_compat_l; assumption).
    cbn [snd]. destruct (Rlt_dec _ 0.0001) as [Hcut|Hgo].
    + intros [= <-] [= <-]. cbn [fst]. lra.
    + apply IH; [|lra].
      pose proof (lookup_qx_nonneg table (retirement_age + t)). lra.
Qed.

(** ** The specification's loop and the program's loop *)

Lemma annuity_iteration_eq (ra : Z) (d : R) (table : MortalityTable)
    (t : Z) (total survival : R) :
  annuity_iteration ra d table t total survival =
  if Z_ge_dec (ra + t) 115 then Returned total
  else if Rlt_dec survival 0.0001 then Returned total
  else v ← discount_factor d t;
       annuity_iteration ra d table (t + 1) (total + survival * v)
         (survival * (1 - lookup_qx table (ra + t))).
Proof.
  rewrite annuity_iteration_equation_1.
  destruct (Z_ge_dec (ra + t) 115); [reflexivity|].
  rewrite annuity_iteration_clause_1_equation_2.
  destruct (Rlt_dec survival 0.0001); [reflexivity|].
  rewrite annuity_iteration_clause_1_clause_2_equation_2.
  destruct (discount_factor d t); reflexivity.
Qed.

Lemma annuity_iteration_stopped (ra : Z) (d : R) (table : MortalityTable)
    (t : Z) (total survival : R) :
  survival < 0.0001 -> annuity_iteration ra d table t total survival = Returned total.
Proof.
  intros Hcut. rewrite annuity_iteration_eq.
  destruct (Z_ge_dec (ra + t) 115); [reflexivity|].
  destruct (Rlt_dec survival 0.0001); [reflexivity | contradiction].
Qed.

(** From any year [t] reached with a survival probability that did not
    trigger the [break], the rest of the [for] loop and the
    specification's iteration agree. *)
Lemma annuity_loop_iteration (ra : Z) (d : R) (table : MortalityTable) (n : nat) :
  forall (t : Z) (total survival : R),
    n = Z.to_nat (115 - ra - t) ->
    ~ survival < 0.0001 ->
    (s ← for_in (py_range t (115 - ra)) (annuity_body ra d table) (total, survival);
     Returned (fst s))
    = annuity_iteration ra d table t total survival.
Proof.
  induction n as [|n IH]; intros t total survival Hn Hgo;
    rewrite annuity_iteration_eq.
  - rewrite py_range_nil by lia.
    destruct (Z_ge_dec (ra + t) 115); [reflexivity | lia].
  - rewrite py_range_cons by lia.
    destruct (Z_ge_dec (ra + t) 115); [lia|].
    destruct (Rlt_dec survival 0.0001); [contradiction|].
    cbn [for_in]. rewrite annuity_body_eq.
    destruct (discount_factor d t) as [v|e]; [|reflexivity].
    cbn [mbind outcome_bind snd].
    destruct (Rlt_dec (survival * (1 - lookup_qx table (ra + t))) 0.0001) as [Hcut|Hgo'].
    + rewrite annuity_iteration_stopped by assumption. reflexivity.
    + apply IH; [lia | assumption].
Qed.

(** ** The accumulation loop *)

Lemma accumulation_loop (inputs : PlanInputs) (n : nat) :
  fold_left
    (accumulation_body (employerRate inputs + personalRate inputs)
       (investmentReturn inputs) (salaryGrowth inputs))
    (py_range 0 (Z.of_nat n)) (0, currentAnnualSalary inputs)
  = accumulation inputs n.
Proof.
  induction n as [|n IH].
  - reflexivity.
  - pose proof (py_range_snoc 0 n) as Hsnoc. rewrite !Z.add_0_l in Hsnoc.
    rewrite Hsnoc, fold_left_app, IH. cbn [fold_left accumulation].
    destruct (accumulation inputs n) as [balance salary]. reflexivity.
Qed.

Lemma accumulation_loop_years (inputs : PlanInputs) (years : Z) :
  fold_left
    (accumulation_body (employerRate inputs + personalRate inputs)
       (investmentReturn inputs) (salaryGrowth inputs))
    (py_range 0 years) (0, currentAnnualSalary inputs)
  = accumulation inputs (Z.to_nat years).
Proof.
  rewrite <- accumulation_loop. f_equal. unfold py_range. do 2 f_equal. lia.
Qed.

Lemma accumulation_salary (inputs : PlanInputs) (n : nat) :
  snd (accumulation inputs n)
  = currentAnnualSalary inputs * (1 + salaryGrowth inputs) ^ n.
Proof.
  induction n as [|n IH]; cbn [accumulation].
  - cbn. lra.
  - destruct (accumulation inputs n) as [balance salary]. cbn [snd] in *.
    rewrite IH. cbn [pow]. lra.
Qed.

Lemma grown_contributions_step (inputs : PlanInputs) (n k : nat) :
  (k <= n)%nat ->
  grown_contributions inputs (S n) k
  = grown_contributions inputs n k * (1 + investmentReturn inputs).
Proof.
  induction k as [|k IH]; intros Hk; cbn [grown_contributions].
  - lra.
  - rewrite IH by lia. replace (S n - k)%nat with (S (n - k)) by lia.
    cbn [pow]. lra.
Qed.

Lemma accumulation_balance (inputs : PlanInputs) (n : nat) :
  fst (accumulation inputs n) = grown_contributions inputs n n.
Proof.
  induction n as [|n IH]; cbn [accumulation grown_contributions].
  - reflexivity.
  - pose proof (accumulation_salary inputs n) as Hsal.
    destruct (accumulation inputs n) as [balance salary]. cbn [fst snd] in *.
    rewrite grown_contributions_step by lia.
    replace (S n - n)%nat with 1%nat by lia.
    rewrite <- IH. unfold contribution. rewrite Hsal. cbn [pow]. lra.
Qed.

Lemma accumulation_nonneg (inputs : PlanInputs) (n : nat) :
  0 <= currentAnnualSalary inputs ->
  0 <= employerRate inputs + personalRate inputs ->
  -1 <= investmentReturn inputs ->
  -1 <= salaryGrowth inputs ->
  0 <= fst (accumulation inputs n) /\ 0 <= snd (accumulation inputs n).
Proof.
  intros Hs Hc Hr Hg. induction n as [|n [IHb IHs]]; cbn [accumulation].
  - cbn. lra.
  - destruct (accumulation inputs n) as [balance salary]. cbn [fst snd] in *.
    assert (0 <= salary * (employerRate inputs + personalRate inputs))
      by (apply Rmult_le_pos; assumption).
    split; apply Rmult_le_pos; lra.
Qed.

(** ** When the remediation formula is defined *)

Lemma pow_eq_1_cases (x : R) (n : nat) :
  (0 < n)%nat -> x ^ n = 1 -> x = 1 \/ (x = -1 /\ Nat.Even n).
Proof.
  intros Hn Hx.
  assert (Habs : Rabs x ^ n = 1) by (rewrite RPow_abs, Hx; apply Rabs_R1).
  assert (H1 : Rabs x = 1).
  { pose proof (Rabs_pos x) as Hpos.
    destruct (Rtotal_order (Rabs x) 1) as [Hlt|[Heq|Hgt]]; [|assumption|].
    - pose proof (pow_lt_1_compat (Rabs x) n (conj Hpos Hlt) Hn). lra.
    - pose proof (Rlt_pow_R1 (Rabs x) n Hgt Hn). lra. }
  unfold Rabs in H1. destruct (Rcase_abs x) as [Hneg|Hnn]; [right | left; assumption].
  assert (Hm : x = -1) by lra. split; [assumption|]. subst x.
  destruct (Nat.Even_or_Odd n) as [|[k ->]]; [assumption|].
  replace (2 * k + 1)%nat with (S (2 * k)) in Hx by lia.
  rewrite pow_1_odd in Hx. lra.
Qed.

Lemma remediation_denominator_zero (inputs : PlanInputs) :
  (0 < yearsToGo inputs)%Z ->
  remediation_denominator inputs = 0 <->
  investmentReturn inputs = 0
  \/ (investmentReturn inputs = -2 /\ Z.Even (yearsToGo inputs)).
Proof.
  intros Hn. unfold remediation_denominator.
  set (n := Z.to_nat (yearsToGo inputs)).
  assert (Hpar : Nat.Even n <-> Z.Even (yearsToGo inputs)).
  { subst n. split; intros [k Hk].
    - exists (Z.of_nat k). lia.
    - exists (Z.to_nat k). lia. }
  split.
  - intros Hden.
    destruct (pow_eq_1_cases (1 + investmentReturn inputs) n) as [H1|[H1 Hev]];
      [subst n; lia | lra | left; lra | right].
    split; [lra | now apply Hpar].
  - intros [H0|[H2 Hev]].
    + rewrite H0, Rplus_0_r, pow1. lra.
    + apply Hpar in Hev as [k Hk]. rewrite H2, Hk.
      replace (1 + -2) with (-1) by lra. rewrite pow_1_even. lra.
Qed.

Lemma remediation_defined_for_gains (inputs : PlanInputs) :
  (0 < yearsToGo inputs)%Z -> 0 < investmentReturn inputs ->
  remediation_denominator inputs <> 0.
Proof.
  intros Hn Hr. unfold remediation_denominator.
  assert (1 < (1 + investmentReturn inputs) ^ Z.to_nat (yearsToGo inputs))
    by (apply Rlt_pow_R1; [lra | lia]).
  lra.
Qed.

(** With a return that is not negative the divisor is at least the
    return. *)
Lemma remediation_denominator_gains (inputs : PlanInputs) :
  (0 < yearsToGo inputs)%Z -> 0 <= investmentReturn inputs ->
  investmentReturn inputs <= remediation_denominator inputs.
Proof.
  intros Hn Hr. unfold remediation_denominator.
  pose proof (Rle_pow (1 + investmentReturn inputs) 1 (Z.to_nat (yearsToGo inputs))
                ltac:(lra) ltac:(lia)) as Hpow.
  rewrite pow_1 in Hpow. lra.
Qed.

(** ** The outcomes of [project] *)

Lemma project_retired (inputs : PlanInputs) (tables : MortalityTables) :
  (yearsToGo inputs <= 0)%Z ->
  project inputs tables = Returned (None, "Already Retired").
Proof.
  intros Hn. unfold project, run_simulation. fold (yearsToGo inputs).
  destruct (decide (yearsToGo inputs <= 0)%Z); [reflexivity | contradiction].
Qed.

(** Past the guard, [project] is the inflation of the target, the
    valuation of the goal and the remediation step, applied to the
    quantities the specification names. *)
Lemma project_running (inputs : PlanInputs) (tables : MortalityTables) :
  (0 < yearsToGo inputs)%Z ->
  project inputs tables =
  _ ← py_pow (1 + inflation inputs) (yearsToGo inputs);
  f ← calculate_life_annuity_factor (retirementAge inputs) (sex inputs) 0.04 tables;
  extra ← (if Rgt_dec (futureAnnualIncome inputs * f - projectedBalance inputs) 0
           then p ← py_pow (1 + investmentReturn inputs) (yearsToGo inputs);
                x ← py_div ((futureAnnualIncome inputs * f - projectedBalance inputs)
                             * investmentReturn inputs) (p - 1);
                Returned (x / 12)
           else Returned 0);
  Returned (Some (result_for inputs f extra), "Success").
Proof.
  intros Hn. unfold project, run_simulation. fold (yearsToGo inputs).
  destruct (decide (yearsToGo inputs <= 0)%Z); [lia|].
  destruct (py_pow (1 + inflation inputs) (yearsToGo inputs)) as [p|e] eqn:Hp;
    cbn [mbind outcome_bind]; [|reflexivity].
  apply py_pow_returned in Hp as [-> _].
  destruct (calculate_life_annuity_factor _ _ _ _) as [f|e];
    cbn [mbind outcome_bind]; [|reflexivity].
  rewrite accumulation_loop_years.
  unfold result_for, projectedBalance, futureAnnualIncome, power.
  destruct (accumulation inputs (Z.to_nat (yearsToGo inputs))) as [balance salary].
  reflexivity.
Qed.

(** The ways a projection past the guard can end, once the target is
    inflated and the goal valued. *)
Lemma project_cases (inputs : PlanInputs) (tables : MortalityTables) (f : R) :
  (0 < yearsToGo inputs)%Z ->
  Rabs (power (1 + inflation inputs) (yearsToGo inputs)) < float_overflow ->
  calculate_life_annuity_factor (retirementAge inputs) (sex inputs) 0.04 tables
    = Returned f ->
  let gap := futureAnnualIncome inputs * f - projectedBalance inputs in
  (gap <= 0 ->
   project inputs tables = Returned (Some (result_for inputs f 0), "Success"))
  /\ (gap > 0 ->
      Rabs (power (1 + investmentReturn inputs) (yearsToGo inputs)) < float_overflow ->
      float_underflow < Rabs (remediation_denominator inputs) ->
      project inputs tables =
      Returned (Some (result_for inputs f
                        (gap * investmentReturn inputs
                         / remediation_denominator inputs / 12)),
                "Success"))
  /\ (gap > 0 ->
      Rabs (power (1 + investmentReturn inputs) (yearsToGo inputs)) < float_overflow ->
      Rabs (remediation_denominator inputs) <= float_underflow ->
      project inputs tables = Raised ZeroDivisionError)
  /\ (gap > 0 ->
      float_overflow <= Rabs (power (1 + investmentReturn inputs) (yearsToGo inputs)) ->
      project inputs tables = Raised OverflowError).
Proof.
  intros Hn Hinf Hf gap.
  rewrite (project_running inputs tables Hn), (py_pow_defined _ _ Hinf), Hf.
  cbn [mbind outcome_bind]. fold gap.
  change (remediation_denominator inputs)
    with (power (1 + investmentReturn inputs) (yearsToGo inputs) - 1).
  repeat split.
  - intros Hgap. destruct (Rgt_dec gap 0); [lra | reflexivity].
  - intros Hgap Hpow Hden. destruct (Rgt_dec gap 0); [|contradiction].
    rewrite (py_pow_defined _ _ Hpow). cbn [mbind outcome_bind].
    rewrite py_div_defined by assumption. reflexivity.
  - intros Hgap Hpow Hden. destruct (Rgt_dec gap 0); [|contradiction].
    rewrite (py_pow_defined _ _ Hpow). cbn [mbind outcome_bind].
    rewrite py_div_zero by assumption. reflexivity.
  - intros Hgap Hpow. destruct (Rgt_dec gap 0); [|contradiction].
    rewrite (py_pow_overflow _ _ Hpow). reflexivity.
Qed.

(** What a returned result is made of. *)
Lemma project_returned (inputs : PlanInputs) (tables : MortalityTables)
    (res : ProjectionResult) (status : string) :
  (0 < yearsToGo inputs)%Z ->
  project inputs tables = Returned (Some res, status) ->
  exists f extra : R,
    calculate_life_annuity_factor (retirementAge inputs) (sex inputs) 0.04 tables
      = Returned f
    /\ res = result_for inputs f extra
    /\ status = "Success"
    /\ (shortfall res <= 0 -> extra = 0)
    /\ (shortfall res > 0 ->
        remediation_denominator inputs <> 0
        /\ extra = shortfall res * investmentReturn inputs
                   / remediation_denominator inputs / 12).
Proof.
  intros Hn. rewrite (project_running inputs tables Hn).
  destruct (py_pow (1 + inflation inputs) (yearsToGo inputs)) as [p|e];
    cbn [mbind outcome_bind]; [|discriminate].
  destruct (calculate_life_annuity_factor _ _ _ _) as [f|e];
    cbn [mbind outcome_bind]; [|discriminate].
  set (gap := futureAnnualIncome inputs * f - projectedBalance inputs).
  destruct (Rgt_dec gap 0) as [Hgap|Hgap].
  - destruct (py_pow (1 + investmentReturn inputs) (yearsToGo inputs)) as [q|e] eqn:Hq;
      cbn [mbind outcome_bind]; [|discriminate].
    apply py_pow_returned in Hq as [-> _].
    destruct (py_div _ _) as [x|e] eqn:Hx; cbn [mbind outcome_bind]; [|discriminate].
    apply py_div_returned in Hx as (_ & Hden & ->).
    intros [= <- <-]. exists f, (gap * investmentReturn inputs
                                  / remediation_denominator inputs / 12).
    cbn [shortfall result_for]. fold gap.
    repeat split; try reflexivity; try assumption. lra.
  - intros [= <- <-]. exists f, 0. cbn [shortfall result_for]. fold gap.
    repeat split; try reflexivity; lra.
Qed.


(** [project] returns the signal only at the guard. *)
Lemma project_signal (inputs : PlanInputs) (tables : MortalityTables)
    (status : string) :
  project inputs tables = Returned (None, status) ->
  (yearsToGo inputs <= 0)%Z /\ status = "Already Retired".
Proof.
  destruct (Z_le_dec (yearsToGo inputs) 0) as [Hn|Hn].
  - rewrite project_retired by assumption. intros [= <-]. auto.
  - rewrite project_running by lia.
    destruct (py_pow (1 + inflation inputs) _); cbn [mbind outcome_bind]; [|discriminate].
    destruct (calculate_life_annuity_factor _ _ _ _); cbn [mbind outcome_bind];
      [|discriminate].
    destruct (Rgt_dec _ 0).
    + destruct (py_pow (1 + investmentReturn inputs) _); cbn [mbind outcome_bind];
        [|discriminate].
      destruct (py_div _ _); cbn [mbind outcome_bind]; discriminate.
    + discriminate.
Qed.

(** The valuation of the goal, at the fixed rate 0.04, returns for
    every retirement age that people have. *)
Lemma goal_factor_returns (retire_age : Z) (gender : string) (tables : MortalityTables) :
  (0 <= retire_age)%Z ->
  exists f : R,
    calculate_life_annuity_factor retire_age gender 0.04 tables = Returned f
    /\ 0 <= f
    /\ ((retire_age < 115)%Z -> 1 <= f)
    /\ ((115 <= retire_age)%Z -> f = 0)
    /\ f <= IZR (Z.max 0 (115 - retire_age)).
Proof.
  intros Hage.
  destruct (annuity_factor_returns retire_age gender 0.04 tables)
    as (f & Hf & H0 & H1 & Hub); [lra | apply annuity_rate_in_range; [lra | lia] |].
  exists f. repeat split; try assumption.
  intros H115. rewrite annuity_factor_horizon in Hf by assumption. congruence.
Qed.

(** A year of saving before a retirement at 114: the factor is 1, and
    one power of each rate is taken. *)
Lemma project_last_year (inputs : PlanInputs) (tables : MortalityTables) :
  retirementAge inputs = 114%Z -> currentAge inputs = 113%Z ->
  Rabs (1 + inflation inputs) < float_overflow ->
  let gap := futureAnnualIncome inputs * 1 - projectedBalance inputs in
  (gap > 0 ->
   Rabs (1 + investmentReturn inputs) < float_overflow ->
   float_underflow < Rabs (investmentReturn inputs) ->
   project inputs tables =
   Returned (Some (result_for inputs 1
                     (gap * investmentReturn inputs / investmentReturn inputs / 12)),
             "Success"))
  /\ (gap > 0 -> investmentReturn inputs = 0 ->
      project inputs tables = Raised ZeroDivisionError).
Proof.
  intros Hret Hcur Hinf gap.
  assert (Hyears : yearsToGo inputs = 1%Z) by (unfold yearsToGo; lia).
  assert (Hn : (0 < yearsToGo inputs)%Z) by lia.
  assert (Hden : remediation_denominator inputs = investmentReturn inputs).
  { unfold remediation_denominator. rewrite Hyears.
    change (Z.to_nat 1) with 1%nat. rewrite pow_1. lra. }
  destruct (project_cases inputs tables 1 Hn) as (_ & Hgt & Hzero & _).
  { rewrite Hyears, power_1. exact Hinf. }
  { rewrite Hret. apply annuity_factor_last_year. }
  fold gap in Hgt, Hzero. rewrite Hyears, power_1, Hden in Hgt, Hzero. split.
  - intros Hgap Hpow Hr. now apply Hgt.
  - intros Hgap Hr0. apply Hzero; [exact Hgap | |].
    + rewrite Hr0, Rplus_0_r, Rabs_R1. apply float_overflow_pos.
    + rewrite Hr0, Rabs_R0. apply Rlt_le, float_underflow_pos.
Qed.

(** A whole projection: a salary of 100 with 10% saved and a return of
    10% gives a balance of 11; a monthly target of 10 needs 120; the gap
    of 109 is closed by one extra annual contribution of 109. *)
Example projection_last_year :
  project last_year_plan synthetic_tables = Returned (Some last_year_result, "Success").
Proof.
  assert (Hinc : futureAnnualIncome last_year_plan = 120).
  { change (futureAnnualIncome last_year_plan) with (10 * 12 * ((1 + 0) * 1)). lra. }
  assert (Hbal : projectedBalance last_year_plan = 11).
  { change (projectedBalance last_year_plan)
      with ((0 + 100 * (0.05 + 0.05)) * (1 + 0.1)). lra. }
  pose proof float_overflow_large as Hlarge. pose proof float_underflow_small as Hsmall.
  pose proof (Rle_pow 2 1 1000 ltac:(lra) ltac:(lia)) as Hpow. rewrite pow_1 in Hpow.
  destruct (project_last_year last_year_plan synthetic_tables) as [Hgt _];
    [reflexivity | reflexivity | |].
  { change (inflation last_year_plan) with 0. rewrite Rabs_right; lra. }
  rewrite Hgt.
  - unfold result_for, last_year_result.
    rewrite Hinc, Hbal. change (investmentReturn last_year_plan) with 0.1.
    replace (120 * 1) with 120 by lra.
    replace (120 - 11) with 109 by lra.
    replace (109 * 0.1 / 0.1 / 12) with (109 / 12) by lra.
    replace (120 / 12) with 10 by lra.
    reflexivity.
  - rewrite Hinc, Hbal. lra.
  - change (investmentReturn last_year_plan) with 0.1. rewrite Rabs_right; lra.
  - change (investmentReturn last_year_plan) with 0.1. rewrite Rabs_right; lra.
Qed.

(** ** The first passes *)

Lemma annuity_first_pass_break (age : Z) (d : R) (table : MortalityTable) (ts : list Z) :
  1 - lookup_qx table age < 0.0001 ->
  for_in (0%Z :: ts) (annuity_body age d table) (0, 1)
  = Returned (1, 1 - lookup_qx table age).
Proof.
  intros Hcut.
  rewrite (annuity_pass_break age d table 0 ts 0 1 1 (lookup_qx table age));
    [| apply discount_factor_0 | f_equal; lia | lra].
  f_equal. f_equal; lra.
Qed.

Lemma annuity_first_pass_continue (age : Z) (d : R) (table : MortalityTable) (ts : list Z) :
  ~ 1 - lookup_qx table age < 0.0001 ->
  for_in (0%Z :: ts) (annuity_body age d table) (0, 1)
  = for_in ts (annuity_body age d table) (1, 1 - lookup_qx table age).
Proof.
  intros Hgo.
  rewrite (annuity_pass_continue age d table 0 ts 0 1 1 (lookup_qx table age));
    [| apply discount_factor_0 | f_equal; lia | lra].
  do 2 f_equal; lra.
Qed.

(** A retirement age without a usable cell: one payment. *)
Lemma annuity_factor_first_year_only (age : Z) (gender : string) (d : R)
    (tables : MortalityTables) :
  (age < 115)%Z ->
  1 - lookup_qx (select_table gender tables) age < 0.0001 ->
  calculate_life_annuity_factor age gender d tables = Returned 1.
Proof.
  intros Hage Hcut. unfold calculate_life_annuity_factor.
  rewrite py_range_cons by lia.
  rewrite annuity_first_pass_break by assumption. reflexivity.
Qed.

Lemma discount_factor_overflow (d : R) (t : Z) :
  float_overflow <= Rabs (power (1 + d) t) ->
  discount_factor d t = Raised OverflowError.
Proof.
  intros Hp. unfold discount_factor. rewrite py_pow_overflow by assumption. reflexivity.
Qed.

(** ** The generated tables in the valuation loop *)

(** The stored value as a function of the effective age. *)
Lemma synthetic_value_monotone (age_offset a b : Z) :
  (a <= b)%Z -> synthetic_value age_offset a <= synthetic_value age_offset b.
Proof.
  intros Hab. unfold synthetic_value. rewrite !py_min_Rmin.
  set (ea := Z.max 0 (a - age_offset)). set (eb := Z.max 0 (b - age_offset)).
  assert (Hle : (ea <= eb)%Z) by (subst ea eb; lia).
  apply Rle_min_compat_r.
  destruct (decide (ea < 30)%Z) as [Ha|Ha]; destruct (decide (eb < 30)%Z) as [Hb|Hb].
  - lra.
  - assert (0 <= 0.092 * IZR (eb - 30)).
    { apply Rmult_le_pos; [lra|]. apply IZR_le. lia. }
    pose proof (exp_ineq1_le (0.092 * IZR (eb - 30))). nra.
  - lia.
  - assert (Hx : 0.092 * IZR (ea - 30) <= 0.092 * IZR (eb - 30)).
    { apply Rmult_le_compat_l; [lra|]. apply IZR_le. lia. }
    destruct Hx as [Hlt|Heq].
    + pose proof (exp_increasing _ _ Hlt). lra.
    + rewrite Heq. lra.
Qed.

Lemma synthetic_value_floor (age_offset a : Z) : 0.0005 <= synthetic_value age_offset a.
Proof.
  unfold synthetic_value. rewrite py_min_Rmin. apply Rmin_glb; [|lra].
  destruct (decide _); [lra|].
  assert (0 <= 0.092 * IZR (Z.max 0 (a - age_offset) - 30)).
  { apply Rmult_le_pos; [lra|]. apply IZR_le. lia. }
  pose proof (exp_ineq1_le (0.092 * IZR (Z.max 0 (a - age_offset) - 30))). nra.
Qed.

(** What the valuation loop reads from a generated table. *)
Lemma synthetic_lookup_qx (gender : string) (a : Z) :
  lookup_qx (_generate_synthetic_mortality gender) a
  = if decide (0 <= a <= 120)%Z
    then synthetic_value (if decide (gender = "Female") then 5 else 0) a
    else 1.
Proof.
  unfold lookup_qx. fold (syntheticQx gender a).
  destruct (decide (0 <= a <= 120)%Z) as [Hin|Hout].
  - rewrite synthetic_lookup by assumption.
    pose proof (synthetic_value_bounds (if decide (gender = "Female") then 5 else 0)%Z a).
    destruct (Rlt_dec _ 0); [lra | reflexivity].
  - rewrite synthetic_absent by lia. reflexivity.
Qed.

Lemma exp_below_4 (x : R) : x <= 4 -> exp x <= 81.
Proof.
  intros Hx. assert (H4 : exp 4 <= 81).
  { replace 4 with (2 + 2) by lra. rewrite exp_plus.
    pose proof (exp_below_2 2 ltac:(lra)). pose proof (exp_pos 2). nra. }
  destruct (Rle_lt_or_eq_dec x 4 Hx) as [Hlt| ->]; [|assumption].
  pose proof (exp_increasing x 4 Hlt). lra.
Qed.

(** Up to an effective age of 73 a generated death probability is
    below 5%. *)
Lemma synthetic_value_sixties (age_offset a : Z) :
  (a - age_offset <= 73)%Z -> synthetic_value age_offset a <= 0.0405.
Proof.
  intros Ha. unfold synthetic_value. rewrite py_min_Rmin.
  etransitivity; [apply Rmin_l|].
  destruct (decide _); [lra|].
  assert (Hx : 0.092 * IZR (Z.max 0 (a - age_offset) - 30) <= 4).
  { assert (IZR (Z.max 0 (a - age_offset) - 30) <= 43) by (apply IZR_le; lia). lra. }
  pose proof (exp_below_4 _ Hx). lra.
Qed.

(** A rate of [2^700]: the first two passes go through, the third
    takes a power of about [2^1400]. *)
Lemma steep_rate_power :
  float_underflow < Rabs (1 + steep_rate) < float_overflow
  /\ float_overflow <= Rabs (power (1 + steep_rate) 2).
Proof.
  unfold steep_rate.
  assert (H700 : 1 <= 2 ^ 700) by (apply pow_R1_Rle; lra).
  assert (Hlt : 1 + 2 ^ 700 < 2 ^ 1000).
  { assert (2 ^ 701 <= 2 ^ 1000) by (apply Rle_pow; [lra | lia]).
    change (2 ^ 701) with (2 * 2 ^ 700) in *. lra. }
  pose proof float_overflow_large as Hlarge.
  pose proof float_underflow_small as Hsmall.
  split.
  - rewrite Rabs_right by lra. lra.
  - unfold power. change (Z.to_nat 2) with 2%nat.
    assert (Hsq : 2 ^ 1024 <= (1 + 2 ^ 700) ^ 2).
    { assert (H1 : (2 ^ 700) ^ 2 <= (1 + 2 ^ 700) ^ 2) by (apply pow_incr; lra).
      rewrite <- pow_mult in H1.
      assert (2 ^ 1024 <= 2 ^ (700 * 2)) by (apply Rle_pow; [lra | lia]). lra. }
    assert (0 < 2 ^ 970) by (apply pow_lt; lra).
    rewrite Rabs_right by lra. unfold float_overflow. lra.
Qed.

Lemma annuity_steep_rate :
  calculate_life_annuity_factor 65 "Male" steep_rate synthetic_tables
  = Raised OverflowError.
Proof.
  destruct steep_rate_power as [Hin Hout].
  unfold calculate_life_annuity_factor.
  change (select_table "Male" synthetic_tables)
    with (_generate_synthetic_mortality "Male").
  set (table := _generate_synthetic_mortality "Male").
  assert (Hq : forall a : Z, (0 <= a <= 73)%Z ->
                 0 <= lookup_qx table a <= 0.0405).
  { intros a Ha. subst table. rewrite synthetic_lookup_qx.
    destruct (decide (0 <= a <= 120)%Z); [|lia].
    change (if decide ("Male" = "Female") then 5%Z else 0%Z) with 0%Z.
    split; [apply synthetic_value_bounds | apply synthetic_value_sixties; lia]. }
  pose proof (Hq 65%Z ltac:(lia)) as H65. pose proof (Hq 66%Z ltac:(lia)) as H66.
  do 3 (rewrite py_range_cons by lia).
  rewrite annuity_first_pass_continue by (change (65 + 0)%Z with 65%Z; lra).
  change (0 + 1)%Z with 1%Z. change (1 + 1)%Z with 2%Z.
  rewrite (annuity_pass_continue 65 steep_rate table 1 _ _ _
             (1 / (1 + steep_rate)) (lookup_qx table 66));
    [| now apply discount_factor_1 | reflexivity | change (65 + 1)%Z with 66%Z; nra].
  rewrite (annuity_pass_raise _ _ _ _ _ _ OverflowError); [reflexivity|].
  now apply discount_factor_overflow.
Qed.

(** * The claims of the specification *)

(** ** Mortality table provider *)

(** C9.  For every age [a] of [0..120] the synthetic generator stores
    [0.0005] when [max(0, a - offset) < 30] and
    [min(0.0005 * e^(0.092 * (max(0, a - offset) - 30)), 1.0)] otherwise,
    where [offset] is 5 for "Female" and 0 for "Male" (and any other
    category); in particular it stores [0.0005] for a man of 30 and for a
    woman of 35, and [0.0005 * e^(0.092*20)] for a man of 50. *)
Theorem synthetic_generator_policy :
  (forall (gender : string) (a : Z),
      (0 <= a <= 120)%Z ->
      let offset := if decide (gender = "Female") then 5%Z else 0%Z in
      let effective_age := Z.max 0 (a - offset) in
      syntheticQx gender a
      = Some (Val (if decide (effective_age < 30)%Z then 0.0005
                   else Rmin (0.0005 * exp (0.092 * IZR (effective_age - 30))) 1)))
  /\ syntheticQx "Male" 30 = Some (Val 0.0005)
  /\ syntheticQx "Female" 35 = Some (Val 0.0005)
  /\ syntheticQx "Male" 50 = Some (Val (0.0005 * exp (0.092 * 20))).
Proof.
  assert (Hall : forall (gender : string) (a : Z),
      (0 <= a <= 120)%Z ->
      let offset := if decide (gender = "Female") then 5%Z else 0%Z in
      let effective_age := Z.max 0 (a - offset) in
      syntheticQx gender a
      = Some (Val (if decide (effective_age < 30)%Z then 0.0005
                   else Rmin (0.0005 * exp (0.092 * IZR (effective_age - 30))) 1))).
  { intros gender a Ha offset effective_age. rewrite synthetic_lookup by assumption.
    fold offset. do 2 f_equal. subst effective_age.
    destruct (decide (Z.max 0 (a - offset) < 30)%Z) as [Hy|Ho].
    - now apply synthetic_value_young.
    - now apply synthetic_value_old. }
  split; [exact Hall|]. split; [|split].
  - rewrite (Hall "Male" 30%Z) by lia. cbn. do 2 f_equal.
    rewrite Rmult_0_r, exp_0, Rmult_1_r. apply Rmin_left. lra.
  - rewrite (Hall "Female" 35%Z) by lia. cbn. do 2 f_equal.
    rewrite Rmult_0_r, exp_0, Rmult_1_r. apply Rmin_left. lra.
  - rewrite (Hall "Male" 50%Z) by lia. cbn. do 2 f_equal.
    apply Rmin_left. pose proof (exp_below_2 (0.092 * 20)). lra.
Qed.

Lemma synthetic_generator_policy_witness :
  syntheticQx "Female" 40
  = Some (Val (Rmin (0.0005 * exp (0.092 * IZR (Z.max 0 (40 - 5) - 30))) 1)).
Proof.
  apply (proj1 synthetic_generator_policy "Female" 40%Z). lia.
Defined.

(** ** Annuity valuation *)

(** C4.  [annuityFactor] is the iteration over the future years
    [t = 0, 1, 2, ...] from the retirement age that stops once
    [retirementAge + t >= 115], or earlier once the running survival
    probability, which starts at 1, is below 0.0001; each step adds
    [S * (1 / (1 + discountRate)^t)] to the total, takes [qx] for the
    current age (1 when the age is absent, 1 when the value is NaN or
    negative) and then replaces [S] by [S * (1 - qx)]. *)
Theorem annuityFactor_iteration (age : Z) (gender : string) (discountRate : R)
    (tables : MortalityTables) :
  annuityFactor age gender discountRate tables
  = annuity_iteration age discountRate (select_table gender tables) 0 0 1.
Proof.
  unfold annuityFactor, calculate_life_annuity_factor.
  apply (annuity_loop_iteration age discountRate (select_table gender tables)
           (Z.to_nat (115 - age - 0))); [reflexivity | lra].
Qed.

(** The largest power taken for a rate of at most 500 and a retirement
    age that is not negative, [501^114], is within half the range. *)
Lemma annuity_rate_500 (age : Z) (d : R) :
  0 <= d <= 500 -> (0 <= age)%Z ->
  power (1 + d) (114 - age) <= 2 ^ 1023.
Proof.
  intros Hd Hage.
  assert (H1 : power (1 + d) (114 - age) <= power (1 + d) 114)
    by (apply power_mono; [lra | lia]).
  assert (H2 : power (1 + d) 114 <= 501 ^ 114).
  { unfold power. change (Z.to_nat 114) with 114%nat. apply pow_incr. lra. }
  assert (H3 : 501 ^ 114 <= 2 ^ 1023).
  { rewrite !pow_IZR. apply IZR_le, Z.lt_le_incl. reflexivity. }
  lra.
Qed.

(** C5, amended.  For tables whose entries are all probabilities and a
    discount rate that is not negative and whose largest power taken,
    [(1 + discountRate)^(114 - age)], is at most [2^1023], half the
    range of the floats, [annuityFactor] raises nothing and returns a
    non-negative number, bounded by the number of years to the
    horizon.  Every rate up to 500 is such a rate, for every retirement
    age that is not negative. *)
Theorem annuityFactor_nonneg_bounded (age : Z) (gender : string) (discountRate : R)
    (tables : MortalityTables) :
  valid_table tables.1 -> valid_table tables.2 -> 0 <= discountRate ->
  power (1 + discountRate) (114 - age) <= 2 ^ 1023 ->
  exists f : R,
    annuityFactor age gender discountRate tables = Returned f
    /\ 0 <= f <= IZR (Z.max 0 (115 - age)).
Proof.
  intros _ _ Hd Hmax. pose proof float_half_range as Hhalf.
  destruct (annuity_factor_returns age gender discountRate tables Hd)
    as (f & Hf & H0 & _ & Hub); [lra|].
  exists f. auto.
Qed.

Lemma annuityFactor_nonneg_bounded_witness :
  exists f : R,
    annuityFactor 65 "Male" 500 synthetic_tables = Returned f
    /\ 0 <= f <= IZR (Z.max 0 (115 - 65)).
Proof.
  apply annuityFactor_nonneg_bounded.
  - apply synthetic_table_valid.
  - apply synthetic_table_valid.
  - lra.
  - apply annuity_rate_500; [lra | lia].
Defined.

(** C5 as stated fails: with the generated tables, whose entries are
    all probabilities, and the non-negative rate [2^700], the third
    pass takes [(1 + 2^700)^2], and [annuityFactor] raises
    [OverflowError] instead of returning a number. *)
Lemma steep_rate_no_factor :
  valid_table synthetic_tables.1 /\ valid_table synthetic_tables.2
  /\ 0 <= steep_rate
  /\ annuityFactor 65 "Male" steep_rate synthetic_tables = Raised OverflowError
  /\ ~ exists f : R, annuityFactor 65 "Male" steep_rate synthetic_tables = Returned f.
Proof.
  split; [apply synthetic_table_valid|]. split; [apply synthetic_table_valid|].
  split; [unfold steep_rate; apply pow_le; lra|].
  unfold annuityFactor. rewrite annuity_steep_rate.
  split; [reflexivity|]. intros [f Hf]. discriminate.
Qed.

(** C6.  For a fixed table, sex category and retirement age, and
    discount rates [0 <= d1 <= d2], the factor at [d2] is at most the
    factor at [d1], whenever the two are returned (a rate whose powers
    leave the range of the floats has no factor). *)
Theorem annuityFactor_antitone (age : Z) (gender : string) (tables : MortalityTables)
    (d1 d2 f1 f2 : R) :
  0 <= d1 -> d1 <= d2 ->
  annuityFactor age gender d1 tables = Returned f1 ->
  annuityFactor age gender d2 tables = Returned f2 ->
  f2 <= f1.
Proof.
  intros H0 H12. unfold annuityFactor, calculate_life_annuity_factor.
  set (table := select_table gender tables).
  destruct (for_in _ (annuity_body age d1 table) _) as [s1|e1] eqn:Hrun1;
    cbn [mbind outcome_bind]; [|discriminate].
  destruct (for_in _ (annuity_body age d2 table) _) as [s2|e2] eqn:Hrun2;
    cbn [mbind outcome_bind]; [|discriminate].
  intros [= <-] [= <-].
  apply (annuity_loop_antitone age table d1 d2 ltac:(lra) H12
           (py_range 0 (115 - age)) 0 0 1 s1 s2); try lra; assumption.
Qed.

Lemma annuityFactor_antitone_witness :
  1 + 0.5 * (1 / (1 + 0.04)) <= 1 + 0.5 * (1 / (1 + 0.03)).
Proof.
  apply (annuityFactor_antitone 113 "Male" (two_year_table, ∅) 0.03 0.04).
  - lra.
  - lra.
  - apply annuity_two_years_at. lra.
  - apply annuity_two_years_at. lra.
Defined.

(** ** Projection engine *)

(** C1.  When the retirement age exceeds the current age, the balance
    [project] returns is the value of the recurrence that starts from
    balance 0 and the current salary and, for each of the [yearsToGo]
    years, adds [salary * (employerRate + personalRate)], then
    multiplies the balance by [1 + investmentReturn], then multiplies
    the salary by [1 + salaryGrowth]; so the contribution of year [k]
    is taken from that year's salary and earns the returns of the years
    [k .. yearsToGo - 1]. *)
Theorem projected_balance_recurrence (inputs : PlanInputs) (tables : MortalityTables)
    (res : ProjectionResult) (status : string) :
  (retirementAge inputs > currentAge inputs)%Z ->
  project inputs tables = Returned (Some res, status) ->
  let n := Z.to_nat (yearsToGo inputs) in
  projected_balance res = fst (accumulation inputs n)
  /\ projected_balance res = grown_contributions inputs n n.
Proof.
  intros Hage Hres n.
  destruct (project_returned inputs tables res status) as (f & extra & _ & -> & _);
    [unfold yearsToGo; lia | assumption |].
  cbn [projected_balance result_for]. unfold projectedBalance. fold n.
  split; [reflexivity | apply accumulation_balance].
Qed.

Lemma projected_balance_recurrence_witness :
  projected_balance last_year_result = fst (accumulation last_year_plan 1)
  /\ projected_balance last_year_result = grown_contributions last_year_plan 1 1.
Proof.
  apply (projected_balance_recurrence last_year_plan synthetic_tables
           last_year_result "Success").
  - cbn. lia.
  - exact projection_last_year.
Defined.

(** C2.  When the retirement age exceeds the current age, the result
    of [project] carries [years_to_go = retirementAge - currentAge],
    the annuity factor valued at the fixed rate 0.04,
    [nest_egg_needed = futureAnnualIncome * annuityFactor] with
    [futureAnnualIncome = targetMonthly * 12 * (1 + inflation)^yearsToGo],
    and [future_monthly_target = futureAnnualIncome / 12]. *)
Theorem goal_sizing (inputs : PlanInputs) (tables : MortalityTables)
    (res : ProjectionResult) (status : string) :
  (retirementAge inputs > currentAge inputs)%Z ->
  project inputs tables = Returned (Some res, status) ->
  let futureAnnualIncome :=
    targetMonthly inputs * 12
    * (1 + inflation inputs) ^ Z.to_nat (retirementAge inputs - currentAge inputs) in
  exists factor : R,
    annuityFactor (retirementAge inputs) (sex inputs) 0.04 tables = Returned factor
    /\ annuity_factor res = factor
    /\ nest_egg_needed res = futureAnnualIncome * factor
    /\ future_monthly_target res = futureAnnualIncome / 12
    /\ years_to_go res = (retirementAge inputs - currentAge inputs)%Z.
Proof.
  intros Hage Hres fai.
  destruct (project_returned inputs tables res status) as (f & extra & Hf & -> & _);
    [unfold yearsToGo; lia | assumption |].
  exists f. split; [exact Hf|]. repeat split.
Qed.

Lemma goal_sizing_witness :
  exists factor : R,
    annuityFactor 114 "Female" 0.04 synthetic_tables = Returned factor
    /\ annuity_factor last_year_result = factor
    /\ nest_egg_needed last_year_result = 10 * 12 * (1 + 0) ^ 1 * factor
    /\ future_monthly_target last_year_result = 10 * 12 * (1 + 0) ^ 1 / 12
    /\ years_to_go last_year_result = (114 - 113)%Z.
Proof.
  apply (goal_sizing last_year_plan synthetic_tables last_year_result "Success").
  - cbn. lia.
  - exact projection_last_year.
Defined.

(** C3.  When the retirement age exceeds the current age, the result
    has [shortfall = nest_egg_needed - projected_balance]; with a
    positive shortfall and a divisor [(1 + r)^yearsToGo - 1] that is
    not zero, the extra monthly contribution is
    [shortfall * r / ((1 + r)^yearsToGo - 1) / 12] for
    [r = investmentReturn]; with a shortfall that is zero or negative
    it is 0.  The divisor is zero for [r = 0], and otherwise only for
    [r = -2] over an even number of years. *)
Theorem extra_monthly_contribution (inputs : PlanInputs) (tables : MortalityTables)
    (res : ProjectionResult) (status : string) :
  (retirementAge inputs > currentAge inputs)%Z ->
  project inputs tables = Returned (Some res, status) ->
  let r := investmentReturn inputs in
  let n := Z.to_nat (yearsToGo inputs) in
  shortfall res = nest_egg_needed res - projected_balance res
  /\ (shortfall res > 0 -> (1 + r) ^ n - 1 <> 0 ->
      extra_monthly_needed res = shortfall res * r / ((1 + r) ^ n - 1) / 12)
  /\ (shortfall res <= 0 -> extra_monthly_needed res = 0)
  /\ (projected_balance res = nest_egg_needed res ->
      shortfall res = 0 /\ extra_monthly_needed res = 0)
  /\ ((1 + r) ^ n - 1 = 0 <-> r = 0 \/ (r = -2 /\ Z.Even (yearsToGo inputs))).
Proof.
  intros Hage Hres r n.
  assert (Hn : (0 < yearsToGo inputs)%Z) by (unfold yearsToGo; lia).
  destruct (project_returned inputs tables res status Hn Hres)
    as (f & extra & _ & Heq & _ & Hle & Hgt).
  assert (Hshort : shortfall res = nest_egg_needed res - projected_balance res)
    by (rewrite Heq; reflexivity).
  assert (Hextra : extra_monthly_needed res = extra) by (rewrite Heq; reflexivity).
  split; [exact Hshort|]. split; [|split; [|split]].
  - intros Hpos _. destruct (Hgt Hpos) as [_ ->]. exact Hextra.
  - intros Hnp. rewrite Hextra. now apply Hle.
  - intros Heven. assert (H0 : shortfall res = 0) by lra.
    split; [exact H0|]. rewrite Hextra. apply Hle. lra.
  - apply (remediation_denominator_zero inputs Hn).
Qed.

Lemma extra_monthly_contribution_witness :
  shortfall last_year_result
  = nest_egg_needed last_year_result - projected_balance last_year_result
  /\ (shortfall last_year_result > 0 -> (1 + 0.1) ^ 1 - 1 <> 0 ->
      extra_monthly_needed last_year_result
      = shortfall last_year_result * 0.1 / ((1 + 0.1) ^ 1 - 1) / 12)
  /\ (shortfall last_year_result <= 0 -> extra_monthly_needed last_year_result = 0)
  /\ (projected_balance last_year_result = nest_egg_needed last_year_result ->
      shortfall last_year_result = 0 /\ extra_monthly_needed last_year_result = 0)
  /\ ((1 + 0.1) ^ 1 - 1 = 0 <-> 0.1 = 0 \/ (0.1 = -2 /\ Z.Even 1)).
Proof.
  apply (extra_monthly_contribution last_year_plan synthetic_tables last_year_result "Success").
  - cbn. lia.
  - exact projection_last_year.
Defined.

(** C7, at a failing input.  The claim has every plan whose retirement
    age exceeds the current age return a result, and the others the
    "Already Retired" signal.  Two years before retirement, with a
    return of exactly zero and tables without cells, so that the
    annuity factor is the float 1.0 of the first payment, [project]
    returns neither: the remediation formula divides by zero. *)
Theorem flat_plan_2_no_result :
  (retirementAge flat_plan_2 > currentAge flat_plan_2)%Z
  /\ annuityFactor 65 "Female" 0.04 no_tables = Returned 1
  /\ project flat_plan_2 no_tables = Raised ZeroDivisionError
  /\ ~ exists (res : ProjectionResult) (status : string),
         project flat_plan_2 no_tables = Returned (Some res, status).
Proof.
  assert (Hf : calculate_life_annuity_factor 65 "Female" 0.04 no_tables = Returned 1).
  { apply annuity_factor_first_year_only; [lia|].
    change (select_table "Female" no_tables) with (∅ : MortalityTable).
    rewrite lookup_qx_absent by apply lookup_empty. lra. }
  assert (Hraise : project flat_plan_2 no_tables = Raised ZeroDivisionError).
  { assert (Hn : (0 < yearsToGo flat_plan_2)%Z) by (unfold yearsToGo; cbn; lia).
    destruct (project_cases flat_plan_2 no_tables 1 Hn) as (_ & _ & Hzero & _).
    - apply power_in_range; [|unfold yearsToGo; cbn; lia].
      change (inflation flat_plan_2) with 0.025. lra.
    - exact Hf.
    - apply Hzero.
      + change (projectedBalance flat_plan_2)
          with (((0 + 60000000 * (0.05 + 0.05)) * (1 + 0)
                 + 60000000 * (1 + 0.03) * (0.05 + 0.05)) * (1 + 0)).
        change (futureAnnualIncome flat_plan_2)
          with (3000000 * 12 * ((1 + 0.025) * ((1 + 0.025) * 1))).
        lra.
      + apply power_in_range; [|unfold yearsToGo; cbn; lia].
        change (investmentReturn flat_plan_2) with 0. lra.
      + change (remediation_denominator flat_plan_2)
          with ((1 + 0) * ((1 + 0) * 1) - 1).
        replace ((1 + 0) * ((1 + 0) * 1) - 1) with 0 by lra.
        rewrite Rabs_R0. apply Rlt_le, float_underflow_pos. }
  split; [cbn; lia|]. split; [exact Hf|]. split; [exact Hraise|].
  intros (res & status & Hres). rewrite Hraise in Hres. discriminate.
Qed.

(** C8, at a failing input.  The claim has [project] raise nothing,
    the remediation formula never dividing by zero.  One year before a
    retirement at 114, where the annuity factor is the float 1.0 of
    the single payment whatever the tables, with a return of exactly
    zero and a positive shortfall, the formula divides by zero and the
    exception leaves [project]. *)
Theorem flat_plan_raises :
  investmentReturn flat_plan = 0
  /\ annuityFactor 114 "Male" 0.04 synthetic_tables = Returned 1
  /\ project flat_plan synthetic_tables = Raised ZeroDivisionError.
Proof.
  split; [reflexivity|]. split; [apply annuity_factor_last_year|].
  destruct (project_last_year flat_plan synthetic_tables) as [_ Hzero];
    [reflexivity | reflexivity | |].
  - change (inflation flat_plan) with 0.025.
    pose proof float_overflow_pos. pose proof float_overflow_large.
    pose proof (Rle_pow 2 1 1000 ltac:(lra) ltac:(lia)) as Hpow. rewrite pow_1 in Hpow.
    rewrite Rabs_right; lra.
  - apply Hzero; [|reflexivity].
    change (projectedBalance flat_plan)
      with ((0 + 60000000 * (0.05 + 0.05)) * (1 + 0)).
    change (futureAnnualIncome flat_plan)
      with (3000000 * 12 * ((1 + 0.025) * 1)).
    lra.
Qed.





(** * Further properties of the code *)

(** ** [calculate_life_annuity_factor]: exceptions and edge cases *)

(** X1.  With a discount rate of exactly -1 the second discount factor
    is [1 / 0.0]: [calculate_life_annuity_factor] raises
    [ZeroDivisionError] exactly when the loop makes a second pass, that
    is when the retirement age is at most 113 and the first year leaves
    a survival probability of at least 0.0001; otherwise it returns the
    single payment 1, or 0 from the horizon on. *)
Theorem annuity_factor_rate_minus_one (age : Z) (gender : string)
    (tables : MortalityTables) :
  let second_pass :=
    (age <= 113)%Z /\ ~ 1 - lookup_qx (select_table gender tables) age < 0.0001 in
  (calculate_life_annuity_factor age gender (-1) tables = Raised ZeroDivisionError
   <-> second_pass)
  /\ (~ second_pass ->
      calculate_life_annuity_factor age gender (-1) tables
      = Returned (if decide (age < 115)%Z then 1 else 0)).
Proof.
  intros second_pass. set (table := select_table gender tables) in *.
  assert (Hraise : second_pass ->
            calculate_life_annuity_factor age gender (-1) tables
            = Raised ZeroDivisionError).
  { intros [Hage Hgo]. unfold calculate_life_annuity_factor. fold table.
    rewrite py_range_cons by lia. rewrite annuity_first_pass_continue by assumption.
    rewrite py_range_cons by lia.
    rewrite (annuity_pass_raise _ _ _ _ _ _ ZeroDivisionError); [reflexivity|].
    apply discount_factor_minus_one. }
  assert (Hreturn : ~ second_pass ->
            calculate_life_annuity_factor age gender (-1) tables
            = Returned (if decide (age < 115)%Z then 1 else 0)).
  { intros Hno. destruct (decide (age < 115)%Z) as [Hlt|Hge].
    - destruct (Z_le_dec age 113) as [Hage|Hage].
      + apply annuity_factor_first_year_only; [exact Hlt|]. fold table.
        destruct (Rlt_dec (1 - lookup_qx table age) 0.0001) as [|Hgo]; [assumption|].
        exfalso. apply Hno. split; assumption.
      + assert (age = 114%Z) as -> by lia. apply annuity_factor_last_year.
    - apply annuity_factor_horizon. lia. }
  split; [split|]; [|exact Hraise | exact Hreturn].
  intros Hzero. destruct (Z_le_dec age 113) as [Hage|Hage].
  - split; [exact Hage|]. intros Hcut.
    rewrite Hreturn in Hzero; [discriminate|]. intros [_ Hgo]. contradiction.
  - rewrite Hreturn in Hzero; [discriminate|]. intros [Hle _]. contradiction.
Qed.

(** X2.  Below the horizon, a retirement age whose cell is absent from
    the selected table, is NaN or is negative counts as certain death:
    the factor is exactly 1, the payment at retirement, whatever the
    discount rate and the rest of the table. *)
Theorem annuity_factor_unusable_cell (age : Z) (gender : string) (d : R)
    (tables : MortalityTables) :
  (age < 115)%Z ->
  select_table gender tables !! age = None
  \/ select_table gender tables !! age = Some NaN
  \/ (exists q : R, select_table gender tables !! age = Some (Val q) /\ q < 0) ->
  calculate_life_annuity_factor age gender d tables = Returned 1.
Proof.
  intros Hage Hcell.
  set (table := select_table gender tables) in *.
  assert (Hq : lookup_qx table age = 1).
  { destruct Hcell as [Hnone|[Hnan|(q & Hval & Hneg)]].
    - now apply lookup_qx_absent.
    - now apply lookup_qx_nan.
    - now apply (lookup_qx_negative table age q). }
  apply annuity_factor_first_year_only; [exact Hage|]. fold table. rewrite Hq. lra.
Qed.

Lemma annuity_factor_unusable_cell_witness :
  calculate_life_annuity_factor 113 "Male" 0.04 (malformed_table, ∅) = Returned 1.
Proof.
  apply annuity_factor_unusable_cell; [lia|].
  right. right. exists (-0.2). split; [reflexivity | lra].
Defined.

(** Two tables that agree on the ages of all passes but the last give
    the same total: the last pass reads its cell only to update the
    survival probability, which nothing uses afterwards. *)
Lemma annuity_loop_local (age : Z) (d : R) (table1 table2 : MortalityTable) :
  forall (ts : list Z) (total_pv prob_survival : R),
    (forall t : Z, In t (removelast ts) ->
                   lookup_qx table1 (age + t) = lookup_qx table2 (age + t)) ->
    (s ← for_in ts (annuity_body age d table1) (total_pv, prob_survival);
     Returned (fst s))
    = (s ← for_in ts (annuity_body age d table2) (total_pv, prob_survival);
       Returned (fst s)).
Proof.
  intros ts. induction ts as [|t ts IH]; intros total_pv prob_survival Hagree.
  - reflexivity.
  - cbn [for_in]. rewrite !annuity_body_eq.
    destruct (discount_factor d t) as [v|e]; [|reflexivity].
    cbn [mbind outcome_bind snd].
    destruct ts as [|t' ts].
    + cbn [for_in]. do 2 destruct (Rlt_dec _ 0.0001); reflexivity.
    + rewrite (Hagree t) by (now left).
      destruct (Rlt_dec _ 0.0001); [reflexivity|].
      apply IH. intros u Hu. apply Hagree. now right.
Qed.

Lemma py_range_removelast (lo hi : Z) :
  removelast (py_range lo hi) = py_range lo (hi - 1).
Proof.
  destruct (Z_lt_dec lo hi) as [Hlt|Hge].
  - pose proof (py_range_snoc lo (Z.to_nat (hi - 1 - lo))) as Hsnoc.
    replace (lo + Z.of_nat (S (Z.to_nat (hi - 1 - lo))))%Z with hi in Hsnoc by lia.
    replace (lo + Z.of_nat (Z.to_nat (hi - 1 - lo)))%Z with (hi - 1)%Z in Hsnoc by lia.
    rewrite Hsnoc. apply removelast_last.
  - rewrite !py_range_nil by lia. reflexivity.
Qed.

(** X3.  The factor depends on the selected table only through the
    cells of the ages from the retirement age to 113: two pairs of
    tables that agree there give the same outcome.  The cell of age 114
    is read by the last pass but cannot change the result. *)
Theorem annuity_factor_local (age : Z) (gender : string) (d : R)
    (tables1 tables2 : MortalityTables) :
  (forall a : Z, (age <= a <= 113)%Z ->
                 select_table gender tables1 !! a = select_table gender tables2 !! a) ->
  calculate_life_annuity_factor age gender d tables1
  = calculate_life_annuity_factor age gender d tables2.
Proof.
  intros Hagree. unfold calculate_life_annuity_factor.
  apply annuity_loop_local. intros t Ht.
  rewrite py_range_removelast in Ht. apply list_elem_of_In, py_range_elem_of in Ht.
  unfold lookup_qx. rewrite Hagree by lia. reflexivity.
Qed.

Lemma annuity_factor_local_witness :
  calculate_life_annuity_factor 113 "Male" 0.04 (two_year_table, ∅)
  = calculate_life_annuity_factor 113 "Male" 0.04 ({[ 113%Z := Val 0.5 ]}, cutoff_table).
Proof.
  apply annuity_factor_local. intros a Ha.
  assert (a = 113%Z) as -> by lia. reflexivity.
Defined.

(** ** [calculate_life_annuity_factor]: mortality *)

(** A table with higher death probabilities is left no later and adds
    no more in any pass. *)
Lemma annuity_loop_mortality (age : Z) (d : R) (heavy light : MortalityTable) :
  0 < 1 + d ->
  (forall a : Z, lookup_qx light a <= lookup_qx heavy a) ->
  forall (ts : list Z) (total_h total_l surv_h surv_l : R) (s_h s_l : R * R),
    0 <= surv_h <= surv_l -> total_h <= total_l ->
    for_in ts (annuity_body age d heavy) (total_h, surv_h) = Returned s_h ->
    for_in ts (annuity_body age d light) (total_l, surv_l) = Returned s_l ->
    fst s_h <= fst s_l.
Proof.
  intros Hd Hq ts. induction ts as [|t ts IH];
    intros total_h total_l surv_h surv_l s_h s_l Hsurv Htot.
  - intros [= <-] [= <-]. exact Htot.
  - cbn [for_in]. rewrite !annuity_body_eq.
    destruct (discount_factor d t) as [v|e] eqn:Hv; cbn [mbind outcome_bind];
      [|discriminate].
    apply discount_factor_returned in Hv as [-> _].
    pose proof (discount_pos d t Hd) as Hv.
    set (v := 1 / power (1 + d) t) in *.
    pose proof (Hq (age + t)%Z) as Hqt.
    pose proof (lookup_qx_nonneg light (age + t)) as Hql.
    set (qh := lookup_qx heavy (age + t)) in *.
    set (ql := lookup_qx light (age + t)) in *.
    assert (Hadd : total_h + surv_h * v <= total_l + surv_l * v) by nra.
    cbn [snd].
    destruct (Rlt_dec (surv_h * (1 - qh)) 0.0001) as [Hcut_h|Hgo_h];
      destruct (Rlt_dec (surv_l * (1 - ql)) 0.0001) as [Hcut_l|Hgo_l].
    + intros [= <-] [= <-]. exact Hadd.
    + intros [= <-] Hrun.
      apply (annuity_loop_increasing age light d Hd) in Hrun; [cbn [fst]; lra | lra].
    + exfalso. destruct (Rle_or_lt 0 (1 - ql)) as [Hpos|Hneg]; nra.
    + apply IH; [|exact Hadd].
      assert (0 < 1 - ql) by nra. split; nra.
Qed.

(** X4.  For a discount rate above -1, a table whose death probabilities
    (as the loop uses them: 1 for an absent, NaN or negative cell) are
    at least those of another table at every age gives a factor that is
    at most the other's, when both are returned: more mortality never
    makes the annuity dearer. *)
Theorem annuity_factor_mortality (age : Z) (gender : string) (d : R)
    (heavy light : MortalityTables) (f_heavy f_light : R) :
  0 < 1 + d ->
  (forall a : Z, lookup_qx (select_table gender light) a
                 <= lookup_qx (select_table gender heavy) a) ->
  calculate_life_annuity_factor age gender d heavy = Returned f_heavy ->
  calculate_life_annuity_factor age gender d light = Returned f_light ->
  f_heavy <= f_light.
Proof.
  intros Hd Hq. unfold calculate_life_annuity_factor.
  destruct (for_in _ (annuity_body age d (select_table gender heavy)) _)
    as [s_h|e] eqn:Hh; cbn [mbind outcome_bind]; [|discriminate].
  destruct (for_in _ (annuity_body age d (select_table gender light)) _)
    as [s_l|e] eqn:Hl; cbn [mbind outcome_bind]; [|discriminate].
  intros [= <-] [= <-].
  apply (annuity_loop_mortality age d (select_table gender heavy)
           (select_table gender light) Hd Hq (py_range 0 (115 - age)) 0 0 1 1 s_h s_l);
    try lra; assumption.
Qed.

Lemma annuity_factor_mortality_witness : 1 <= 1 + 0.5 * (1 / (1 + 0.04)).
Proof.
  apply (annuity_factor_mortality 113 "Male" 0.04 no_tables (two_year_table, ∅)).
  - lra.
  - intros a. change (select_table "Male" no_tables) with (∅ : MortalityTable).
    change (select_table "Male" (two_year_table, ∅)) with two_year_table.
    rewrite (lookup_qx_absent ∅ a) by apply lookup_empty.
    destruct (decide (a = 113%Z)) as [->|H113].
    + rewrite (lookup_qx_value two_year_table 113 0.5); [lra | reflexivity | lra].
    + destruct (decide (a = 114%Z)) as [->|H114].
      * rewrite (lookup_qx_value two_year_table 114 0.25); [lra | reflexivity | lra].
      * rewrite lookup_qx_absent; [lra|]. unfold two_year_table.
        rewrite lookup_insert_ne by congruence. apply lookup_singleton_ne. congruence.
  - apply annuity_factor_first_year_only; [lia|].
    change (select_table "Male" no_tables) with (∅ : MortalityTable).
    rewrite lookup_qx_absent by apply lookup_empty. lra.
  - apply annuity_two_years_at. lra.
Defined.

(** ** [_generate_synthetic_mortality]: shape of the tables *)

(** X5.  A generated table has a cell exactly for the ages 0 to 120,
    and every cell is a number (never NaN) between 0.0005 and 1. *)
Theorem synthetic_table_cells (gender : string) (a : Z) :
  (syntheticQx gender a = None <-> (a < 0 \/ 120 < a)%Z)
  /\ (forall e : entry, syntheticQx gender a = Some e ->
        exists q : R, e = Val q /\ 0.0005 <= q <= 1).
Proof.
  split; [split|].
  - intros Hnone. destruct (decide (0 <= a <= 120)%Z) as [Hin|Hout]; [|lia].
    rewrite synthetic_lookup in Hnone by assumption. discriminate.
  - apply synthetic_absent.
  - intros e He. destruct (decide (0 <= a <= 120)%Z) as [Hin|Hout].
    + rewrite synthetic_lookup in He by assumption. injection He as <-.
      eexists. split; [reflexivity|]. split.
      * apply synthetic_value_floor.
      * apply synthetic_value_bounds.
    + rewrite synthetic_absent in He by lia. discriminate.
Qed.

Lemma synthetic_table_cells_witness :
  exists q : R, Val (synthetic_value 0 70) = Val q /\ 0.0005 <= q <= 1.
Proof.
  apply (proj2 (synthetic_table_cells "Male" 70) (Val (synthetic_value 0 70))).
  apply (synthetic_lookup "Male" 70). lia.
Defined.

(** X6.  In a generated table the death probability never decreases
    with age. *)
Theorem synthetic_table_monotone (gender : string) (a b : Z) :
  (0 <= a)%Z -> (a <= b)%Z -> (b <= 120)%Z ->
  exists qa qb : R,
    syntheticQx gender a = Some (Val qa)
    /\ syntheticQx gender b = Some (Val qb)
    /\ qa <= qb.
Proof.
  intros H0 Hab H120. do 2 eexists.
  split; [apply synthetic_lookup; lia|]. split; [apply synthetic_lookup; lia|].
  now apply synthetic_value_monotone.
Qed.

Lemma synthetic_table_monotone_witness :
  exists qa qb : R,
    syntheticQx "Female" 40 = Some (Val qa)
    /\ syntheticQx "Female" 90 = Some (Val qb)
    /\ qa <= qb.
Proof.
  apply synthetic_table_monotone; lia.
Defined.

(** X7.  The female table is the male table five years later: a woman
    of [a + 5] has the death probability of a man of [a]; and at every
    age the female probability is at most the male one. *)
Theorem synthetic_female_shift (a : Z) :
  ((0 <= a <= 115)%Z -> syntheticQx "Female" (a + 5) = syntheticQx "Male" a)
  /\ ((0 <= a <= 120)%Z ->
      exists qf qm : R,
        syntheticQx "Female" a = Some (Val qf)
        /\ syntheticQx "Male" a = Some (Val qm)
        /\ qf <= qm).
Proof.
  split.
  - intros Ha. rewrite !synthetic_lookup by lia. cbn [decide].
    change (if decide ("Female" = "Female") then 5%Z else 0%Z) with 5%Z.
    change (if decide ("Male" = "Female") then 5%Z else 0%Z) with 0%Z.
    unfold synthetic_value. do 2 f_equal.
    replace (Z.max 0 (a + 5 - 5)) with (Z.max 0 (a - 0)) by lia. reflexivity.
  - intros Ha. do 2 eexists.
    split; [apply synthetic_lookup; lia|]. split; [apply synthetic_lookup; lia|].
    change (if decide ("Female" = "Female") then 5%Z else 0%Z) with 5%Z.
    change (if decide ("Male" = "Female") then 5%Z else 0%Z) with 0%Z.
    replace (synthetic_value 5 a) with (synthetic_value 0 (a - 5)).
    + apply synthetic_value_monotone. lia.
    + unfold synthetic_value.
      replace (Z.max 0 (a - 5 - 0)) with (Z.max 0 (a - 5)) by lia. reflexivity.
Qed.

Lemma synthetic_female_shift_witness :
  syntheticQx "Female" (60 + 5) = syntheticQx "Male" 60
  /\ exists qf qm : R,
       syntheticQx "Female" 60 = Some (Val qf)
       /\ syntheticQx "Male" 60 = Some (Val qm)
       /\ qf <= qm.
Proof.
  destruct (synthetic_female_shift 60) as [Hshift Hle].
  split; [apply Hshift; lia | apply Hle; lia].
Defined.

(** X8.  With the generated tables and a discount rate above -1, the
    factor for "Female" is at least the factor for "Male" at every
    retirement age, when both are returned. *)
Theorem synthetic_factor_by_gender (age : Z) (d f_male f_female : R) :
  0 < 1 + d ->
  calculate_life_annuity_factor age "Male" d synthetic_tables = Returned f_male ->
  calculate_life_annuity_factor age "Female" d synthetic_tables = Returned f_female ->
  f_male <= f_female.
Proof.
  intros Hd. unfold calculate_life_annuity_factor.
  change (select_table "Male" synthetic_tables)
    with (_generate_synthetic_mortality "Male").
  change (select_table "Female" synthetic_tables)
    with (_generate_synthetic_mortality "Female").
  destruct (for_in _ (annuity_body age d (_generate_synthetic_mortality "Male")) _)
    as [s_h|e] eqn:Hh; cbn [mbind outcome_bind]; [|discriminate].
  destruct (for_in _ (annuity_body age d (_generate_synthetic_mortality "Female")) _)
    as [s_l|e] eqn:Hl; cbn [mbind outcome_bind]; [|discriminate].
  intros [= <-] [= <-].
  apply (annuity_loop_mortality age d (_generate_synthetic_mortality "Male")
           (_generate_synthetic_mortality "Female") Hd) 
    with (ts := py_range 0 (115 - age)) (total_h := 0) (total_l := 0)
         (surv_h := 1) (surv_l := 1); try lra; try assumption.
  intros a. rewrite !synthetic_lookup_qx.
  destruct (decide (0 <= a <= 120)%Z) as [Hin|Hout]; [|lra].
  change (if decide ("Female" = "Female") then 5%Z else 0%Z) with 5%Z.
  change (if decide ("Male" = "Female") then 5%Z else 0%Z) with 0%Z.
  replace (synthetic_value 5 a) with (synthetic_value 0 (a - 5)).
  - apply synthetic_value_monotone. lia.
  - unfold synthetic_value.
    replace (Z.max 0 (a - 5 - 0)) with (Z.max 0 (a - 5)) by lia. reflexivity.
Qed.

Lemma synthetic_factor_by_gender_witness :
  exists f_male f_female : R,
    calculate_life_annuity_factor 65 "Male" 0.04 synthetic_tables = Returned f_male
    /\ calculate_life_annuity_factor 65 "Female" 0.04 synthetic_tables = Returned f_female
    /\ f_male <= f_female.
Proof.
  destruct (goal_factor_returns 65 "Male" synthetic_tables) as (f_male & Hm & _); [lia|].
  destruct (goal_factor_returns 65 "Female" synthetic_tables) as (f_female & Hf & _); [lia|].
  exists f_male, f_female. split; [exact Hm|]. split; [exact Hf|].
  apply (synthetic_factor_by_gender 65 0.04 f_male f_female); [lra | exact Hm | exact Hf].
Defined.

(** ** [calculate_life_annuity_factor]: the value *)

(** Entering pass [t0] with the sum and the survival probability of the
    first [t0] years, the loop ends with the sum of the first [n]
    years, [n] being the year at which it is left. *)
Lemma annuity_loop_sum (age : Z) (d : R) (table : MortalityTable) (n : nat) :
  0 <= d ->
  power (1 + d) (Z.of_nat n - 1) < float_overflow ->
  (Z.of_nat n <= 115 - age)%Z ->
  (forall t : nat, (1 <= t < n)%nat -> ~ survival table age t < 0.0001) ->
  (Z.of_nat n = 115 - age)%Z \/ survival table age n < 0.0001 ->
  forall (m t0 : nat),
    (t0 + S m = n)%nat ->
    (s ← for_in (py_range (Z.of_nat t0) (115 - age)) (annuity_body age d table)
           (annuity_sum table age d t0, survival table age t0);
     Returned (fst s))
    = Returned (annuity_sum table age d n).
Proof.
  intros Hd Hmax Hn Halive Hstop.
  assert (Hpass : forall t0 : nat, (t0 < n)%nat ->
            discount_factor d (Z.of_nat t0) = Returned (1 / (1 + d) ^ t0)).
  { intros t0 Ht0.
    destruct (discount_defined d (Z.of_nat t0) Hd) as [Hv _].
    - assert (power (1 + d) (Z.of_nat t0) <= power (1 + d) (Z.of_nat n - 1))
        by (apply power_mono; [lra | lia]).
      lra.
    - rewrite Hv. unfold power. now rewrite Nat2Z.id. }
  intros m. induction m as [|m IH]; intros t0 Ht0.
  - rewrite py_range_cons by lia. cbn [for_in].
    rewrite annuity_body_eq, Hpass by lia. cbn [mbind outcome_bind snd].
    replace n with (S t0) in * by lia. cbn [annuity_sum].
    destruct (Rlt_dec _ 0.0001) as [Hcut|Hgo]; [reflexivity|].
    destruct Hstop as [Hend|Hcut].
    + rewrite py_range_nil by lia. reflexivity.
    + exfalso. apply Hgo. exact Hcut.
  - rewrite py_range_cons by lia. cbn [for_in].
    rewrite annuity_body_eq, Hpass by lia. cbn [mbind outcome_bind snd].
    destruct (Rlt_dec _ 0.0001) as [Hcut|Hgo].
    + exfalso. apply (Halive (S t0)); [lia | exact Hcut].
    + specialize (IH (S t0) ltac:(lia)).
      replace (Z.of_nat (S t0)) with (Z.of_nat t0 + 1)%Z in IH by lia.
      exact IH.
Qed.

(** X9.  For a discount rate that is not negative the factor is the
    sum, over the years [t = 0 .. n - 1], of the probability of being
    alive after [t] years divided by [(1 + d)^t], where [n] is the
    number of years to the horizon of 115, or the first year at which
    that probability is below 0.0001 if there is one before; provided
    the largest power taken, [(1 + d)^(n - 1)], is at most [2^1023],
    half the range of the floats. *)
Theorem annuity_factor_sum (age : Z) (gender : string) (d : R)
    (tables : MortalityTables) (n : nat) :
  let table := select_table gender tables in
  0 <= d ->
  power (1 + d) (Z.of_nat n - 1) <= 2 ^ 1023 ->
  (Z.of_nat n <= Z.max 0 (115 - age))%Z ->
  (forall t : nat, (1 <= t < n)%nat -> ~ survival table age t < 0.0001) ->
  (Z.of_nat n = Z.max 0 (115 - age))%Z \/ ((1 <= n)%nat /\ survival table age n < 0.0001) ->
  calculate_life_annuity_factor age gender d tables
  = Returned (annuity_sum table age d n).
Proof.
  intros table Hd Hhalf Hn Halive Hstop.
  assert (Hmax : power (1 + d) (Z.of_nat n - 1) < float_overflow)
    by (pose proof float_half_range; lra).
  unfold calculate_life_annuity_factor. fold table.
  destruct n as [|n].
  - destruct Hstop as [Hend|[Hone _]]; [|lia].
    rewrite py_range_nil by lia. reflexivity.
  - apply (annuity_loop_sum age d table (S n) Hd Hmax ltac:(lia) Halive)
      with (m := n) (t0 := 0%nat); [|lia].
    destruct Hstop as [Hend|[_ Hcut]]; [left; lia | right; exact Hcut].
Qed.

Lemma annuity_factor_sum_witness :
  calculate_life_annuity_factor 113 "Male" 0.04 (two_year_table, ∅)
  = Returned (annuity_sum two_year_table 113 0.04 2).
Proof.
  apply (annuity_factor_sum 113 "Male" 0.04 (two_year_table, ∅) 2).
  - lra.
  - change (power (1 + 0.04) (Z.of_nat 2 - 1)) with ((1 + 0.04) * 1).
    pose proof (pow_R1_Rle 2 1023 ltac:(lra)). lra.
  - lia.
  - intros t Ht. assert (t = 1%nat) as -> by lia.
    change (select_table "Male" (two_year_table, ∅)) with two_year_table.
    cbn [survival]. change (113 + Z.of_nat 0)%Z with 113%Z.
    rewrite (lookup_qx_value two_year_table 113 0.5); [lra | reflexivity | lra].
  - left. lia.
Defined.

(** ** [calculate_life_annuity_factor]: powers out of range *)

(** A loop whose pass [n] raises, whose earlier passes raise the same
    exception or go through, and whose survival probability stays
    above the cutoff until then, raises. *)
Lemma annuity_loop_raises (age : Z) (d : R) (table : MortalityTable) (e : exn)
    (n : nat) :
  (forall t : nat, (t < n)%nat ->
     discount_factor d (Z.of_nat t) = Raised e
     \/ exists v : R, discount_factor d (Z.of_nat t) = Returned v) ->
  discount_factor d (Z.of_nat n) = Raised e ->
  (Z.of_nat n < 115 - age)%Z ->
  (forall t : nat, (1 <= t <= n)%nat -> ~ survival table age t < 0.0001) ->
  forall (m t0 : nat) (total : R),
    (t0 + m = n)%nat ->
    for_in (py_range (Z.of_nat t0) (115 - age)) (annuity_body age d table)
      (total, survival table age t0)
    = Raised e.
Proof.
  intros Hearlier Hlast Hn Halive m.
  induction m as [|m IH]; intros t0 total Ht0; rewrite py_range_cons by lia.
  - replace t0 with n by lia. now apply annuity_pass_raise.
  - destruct (Hearlier t0 ltac:(lia)) as [Hraise|[v Hv]].
    + now apply annuity_pass_raise.
    + cbn [for_in]. rewrite annuity_body_eq, Hv. cbn [mbind outcome_bind snd].
      change (survival table age t0 * (1 - lookup_qx table (age + Z.of_nat t0)))
        with (survival table age (S t0)).
      destruct (Rlt_dec _ 0.0001) as [Hcut|Hgo].
      * exfalso. apply (Halive (S t0)); [lia | exact Hcut].
      * specialize (IH (S t0) (total + survival table age t0 * v) ltac:(lia)).
        replace (Z.of_nat (S t0)) with (Z.of_nat t0 + 1)%Z in IH by lia.
        exact IH.
Qed.

(** X23.  With a discount rate that is not negative, if the power of
    some year [n] before the horizon is twice out of the range of the
    floats, [(1 + d)^n >= 2^1025], and the survival probability stays at
    0.0001 or more through that year, [calculate_life_annuity_factor]
    raises [OverflowError]: no factor is returned. *)
Theorem annuity_factor_overflow (age : Z) (gender : string) (d : R)
    (tables : MortalityTables) (n : nat) :
  let table := select_table gender tables in
  0 <= d ->
  2 ^ 1025 <= (1 + d) ^ n ->
  (Z.of_nat n < 115 - age)%Z ->
  (forall t : nat, (1 <= t <= n)%nat -> ~ survival table age t < 0.0001) ->
  calculate_life_annuity_factor age gender d tables = Raised OverflowError.
Proof.
  intros table Hd Hpow Hn Halive. unfold calculate_life_annuity_factor. fold table.
  assert (Hout : float_overflow <= 2 ^ 1025).
  { unfold float_overflow. assert (0 < 2 ^ 970) by (apply pow_lt; lra).
    assert (2 ^ 1024 <= 2 ^ 1025) by (apply Rle_pow; [lra | lia]). lra. }
  assert (Hrun : for_in (py_range 0 (115 - age)) (annuity_body age d table) (0, 1)
                 = Raised OverflowError); [|now rewrite Hrun].
  apply (annuity_loop_raises age d table OverflowError n) with (m := n) (t0 := 0%nat);
    [ | | exact Hn | exact Halive | lia].
  - intros t _. unfold discount_factor.
    destruct (py_pow (1 + d) (Z.of_nat t)) as [p|e] eqn:Hp; cbn [mbind outcome_bind].
    + right. apply py_pow_returned in Hp as [-> _].
      pose proof (power_ge_1 (1 + d) (Z.of_nat t) ltac:(lra)) as H1.
      eexists. apply py_div_defined. rewrite Rabs_right by lra.
      pose proof float_underflow_small. lra.
    + left. apply py_pow_raised in Hp as [-> _]. reflexivity.
  - apply discount_factor_overflow. unfold power. rewrite Nat2Z.id.
    assert (0 <= (1 + d) ^ n) by (apply pow_le; lra).
    rewrite Rabs_right by lra. lra.
Qed.

Lemma annuity_factor_overflow_witness :
  calculate_life_annuity_factor 65 "Male" steep_rate synthetic_tables
  = Raised OverflowError.
Proof.
  apply (annuity_factor_overflow 65 "Male" steep_rate synthetic_tables 2).
  - unfold steep_rate. apply pow_le. lra.
  - unfold steep_rate.
    assert (H700 : 0 <= 2 ^ 700) by (apply pow_le; lra).
    assert (H1 : (2 ^ 700) ^ 2 <= (1 + 2 ^ 700) ^ 2) by (apply pow_incr; lra).
    rewrite <- pow_mult in H1.
    assert (2 ^ 1025 <= 2 ^ (700 * 2)) by (apply Rle_pow; [lra | lia]). lra.
  - lia.
  - intros t Ht.
    change (select_table "Male" synthetic_tables)
      with (_generate_synthetic_mortality "Male").
    assert (Hq : forall a : Z, (0 <= a <= 73)%Z ->
              0 <= lookup_qx (_generate_synthetic_mortality "Male") a <= 0.0405).
    { intros a Ha. rewrite synthetic_lookup_qx.
      destruct (decide (0 <= a <= 120)%Z); [|lia].
      change (if decide ("Male" = "Female") then 5%Z else 0%Z) with 0%Z.
      split; [apply synthetic_value_bounds | apply synthetic_value_sixties; lia]. }
    pose proof (Hq 65%Z ltac:(lia)) as H65. pose proof (Hq 66%Z ltac:(lia)) as H66.
    assert (t = 1%nat \/ t = 2%nat) as [-> | ->] by lia; cbn [survival];
      change (65 + Z.of_nat 0)%Z with 65%Z; change (65 + Z.of_nat 1)%Z with 66%Z; nra.
Defined.

(** X24.  With a discount rate from -1 to -1/2, if the power of some
    year [n] before the horizon is at most [2^-1076], half of what is
    zero as a float, and the survival probability stays at 0.0001 or
    more through that year, [calculate_life_annuity_factor] raises
    [ZeroDivisionError]: the power underflows to [0.0] and line 109
    divides by it. *)
Theorem annuity_factor_underflow (age : Z) (gender : string) (d : R)
    (tables : MortalityTables) (n : nat) :
  let table := select_table gender tables in
  -1 <= d <= -1 / 2 ->
  (1 + d) ^ n <= / 2 ^ 1076 ->
  (Z.of_nat n < 115 - age)%Z ->
  (forall t : nat, (1 <= t <= n)%nat -> ~ survival table age t < 0.0001) ->
  calculate_life_annuity_factor age gender d tables = Raised ZeroDivisionError.
Proof.
  intros table Hd Hpow Hn Halive. unfold calculate_life_annuity_factor. fold table.
  assert (Hbase : forall t : nat, 0 <= (1 + d) ^ t <= 1).
  { intros t. split; [apply pow_le; lra|].
    pose proof (pow_incr (1 + d) 1 t ltac:(lra)) as Hle. rewrite pow1 in Hle. exact Hle. }
  assert (Hin : forall t : nat,
            py_pow (1 + d) (Z.of_nat t) = Returned ((1 + d) ^ t)).
  { intros t. rewrite py_pow_defined; unfold power; rewrite Nat2Z.id; [reflexivity|].
    pose proof (Hbase t). pose proof float_overflow_pos.
    rewrite Rabs_right; lra. }
  assert (Hrun : for_in (py_range 0 (115 - age)) (annuity_body age d table) (0, 1)
                 = Raised ZeroDivisionError); [|now rewrite Hrun].
  apply (annuity_loop_raises age d table ZeroDivisionError n) with (m := n) (t0 := 0%nat);
    [ | | exact Hn | exact Halive | lia].
  - intros t _. unfold discount_factor. rewrite Hin. cbn [mbind outcome_bind].
    unfold py_div. destruct (Rle_dec _ float_underflow); [left | right; eexists];
      reflexivity.
  - unfold discount_factor. rewrite Hin. cbn [mbind outcome_bind].
    apply py_div_zero. pose proof (Hbase n). rewrite Rabs_right by lra.
    assert (/ 2 ^ 1076 <= float_underflow); [|lra].
    unfold float_underflow. apply Rinv_le_contravar; [apply pow_lt; lra|].
    apply Rle_pow; [lra | lia].
Qed.

(** The survival probability over consecutive spans of years. *)
Lemma survival_split (table : MortalityTable) (age : Z) (t1 t2 : nat) :
  survival table age (t1 + t2)
  = survival table age t1 * survival table (age + Z.of_nat t1) t2.
Proof.
  induction t2 as [|t2 IH].
  - rewrite Nat.add_0_r. cbn [survival]. lra.
  - replace (t1 + S t2)%nat with (S (t1 + t2)) by lia. cbn [survival]. rewrite IH.
    replace (age + Z.of_nat (t1 + t2))%Z with (age + Z.of_nat t1 + Z.of_nat t2)%Z by lia.
    ring.
Qed.

(** Years in each of which at least the share [b] survives. *)
Lemma survival_lower (table : MortalityTable) (age : Z) (b : R) (t : nat) :
  0 <= b ->
  (forall k : nat, (k < t)%nat -> lookup_qx table (age + Z.of_nat k) <= 1 - b) ->
  b ^ t <= survival table age t.
Proof.
  intros Hb. induction t as [|t IH]; intros Hq; cbn [survival pow].
  - lra.
  - rewrite (Rmult_comm b). apply Rmult_le_compat.
    + apply pow_le. exact Hb.
    + exact Hb.
    + apply IH. intros k Hk. apply Hq. lia.
    + specialize (Hq t ltac:(lia)). lra.
Qed.

Lemma pow_antitone (b : R) (m n : nat) : 0 <= b <= 1 -> (m <= n)%nat -> b ^ n <= b ^ m.
Proof.
  intros Hb Hmn. replace n with (m + (n - m))%nat by lia. rewrite pow_add.
  assert (0 <= b ^ m) by (apply pow_le; lra).
  assert (b ^ (n - m) <= 1).
  { pose proof (pow_incr b 1 (n - m) Hb) as Hle. rewrite pow1 in Hle. exact Hle. }
  nra.
Qed.

Lemma exp_below_6 (x : R) : x <= 6 -> exp x <= 729.
Proof.
  intros Hx. assert (H6 : exp 6 <= 729).
  { replace 6 with (2 + 4) by lra. rewrite exp_plus.
    pose proof (exp_below_2 2 ltac:(lra)). pose proof (exp_below_4 4 ltac:(lra)).
    pose proof (exp_pos 2). pose proof (exp_pos 4). nra. }
  destruct (Rle_lt_or_eq_dec x 6 Hx) as [Hlt| ->]; [|assumption].
  pose proof (exp_increasing x 6 Hlt). lra.
Qed.

(** Up to an effective age of 95 a generated death probability is
    below 37%. *)
Lemma synthetic_value_nineties (age_offset a : Z) :
  (a - age_offset <= 95)%Z -> synthetic_value age_offset a <= 0.3645.
Proof.
  intros Ha. unfold synthetic_value. rewrite py_min_Rmin.
  etransitivity; [apply Rmin_l|].
  destruct (decide _); [lra|].
  assert (Hx : 0.092 * IZR (Z.max 0 (a - age_offset) - 30) <= 6).
  { assert (IZR (Z.max 0 (a - age_offset) - 30) <= 65) by (apply IZR_le; lia). lra. }
  pose proof (exp_below_6 _ Hx). lra.
Qed.

(** A man of 65 of the generated table lives for 21 more years with a
    probability of more than 0.0001. *)
Lemma synthetic_survival_65 (t : nat) :
  (t <= 21)%nat ->
  ~ survival (_generate_synthetic_mortality "Male") 65 t < 0.0001.
Proof.
  intros Ht. set (table := _generate_synthetic_mortality "Male").
  assert (Hq : forall a : Z, (0 <= a <= 120)%Z ->
            lookup_qx table a = synthetic_value 0 a).
  { intros a Ha. subst table. rewrite synthetic_lookup_qx.
    destruct (decide (0 <= a <= 120)%Z); [reflexivity | lia]. }
  assert (H9 : forall k : nat, (k <= 9)%nat -> 0.9595 ^ 9 <= survival table 65 k).
  { intros k Hk.
    assert (0.9595 ^ k <= survival table 65 k).
    { apply survival_lower; [lra|]. intros j Hj. rewrite Hq by lia.
      pose proof (synthetic_value_sixties 0 (65 + Z.of_nat j) ltac:(lia)). lra. }
    pose proof (pow_antitone 0.9595 k 9 ltac:(lra) Hk). lra. }
  assert (H12 : forall k : nat, (k <= 12)%nat ->
            0.6355 ^ 12 <= survival table (65 + Z.of_nat 9) k).
  { intros k Hk.
    assert (0.6355 ^ k <= survival table (65 + Z.of_nat 9) k).
    { apply survival_lower; [lra|]. intros j Hj. rewrite Hq by lia.
      pose proof (synthetic_value_nineties 0 (65 + Z.of_nat 9 + Z.of_nat j) ltac:(lia)).
      lra. }
    pose proof (pow_antitone 0.6355 k 12 ltac:(lra) Hk). lra. }
  assert (Hc9 : 0.68 <= 0.9595 ^ 9) by (cbn [pow]; lra).
  assert (Hc12 : 0.004 <= 0.6355 ^ 12) by (cbn [pow]; lra).
  destruct (Nat.le_gt_cases t 9) as [Hle|Hgt].
  - specialize (H9 t Hle). lra.
  - replace t with (9 + (t - 9))%nat by lia. rewrite survival_split.
    specialize (H9 9%nat ltac:(lia)). specialize (H12 (t - 9)%nat ltac:(lia)).
    nra.
Qed.

Lemma annuity_factor_underflow_witness :
  calculate_life_annuity_factor 65 "Male" (/ 2 ^ 53 - 1) synthetic_tables
  = Raised ZeroDivisionError.
Proof.
  apply (annuity_factor_underflow 65 "Male" (/ 2 ^ 53 - 1) synthetic_tables 21).
  - assert (0 < / 2 ^ 53) by (apply Rinv_0_lt_compat, pow_lt; lra).
    assert (/ 2 ^ 53 <= / 2 ^ 1).
    { apply Rinv_le_contravar; [lra|]. apply Rle_pow; [lra | lia]. }
    lra.
  - replace (1 + (/ 2 ^ 53 - 1)) with (/ 2 ^ 53) by lra.
    rewrite pow_inv, <- pow_mult.
    apply Rinv_le_contravar; [apply pow_lt; lra|]. apply Rle_pow; [lra | lia].
  - lia.
  - intros t Ht. apply synthetic_survival_65. lia.
Defined.

(** ** [run_simulation]: the accumulated balance *)

Lemma accumulation_closed (inputs : PlanInputs) (n : nat) :
  let s := currentAnnualSalary inputs in
  let c := employerRate inputs + personalRate inputs in
  let r := investmentReturn inputs in
  let g := salaryGrowth inputs in
  fst (accumulation inputs n) * (r - g) = s * c * (1 + r) * ((1 + r) ^ n - (1 + g) ^ n).
Proof.
  intros s c r g. induction n as [|n IH]; cbn [accumulation].
  - cbn. lra.
  - pose proof (accumulation_salary inputs n) as Hsal. fold s g in Hsal.
    destruct (accumulation inputs n) as [balance salary]. cbn [fst snd] in *.
    fold c r g. rewrite Hsal. cbn [pow].
    replace ((balance + s * (1 + g) ^ n * c) * (1 + r) * (r - g))
      with ((balance * (r - g)) * (1 + r) + s * (1 + g) ^ n * c * (1 + r) * (r - g))
      by ring.
    rewrite IH. ring.
Qed.

Lemma accumulation_equal_rates (inputs : PlanInputs) (n : nat) :
  investmentReturn inputs = salaryGrowth inputs ->
  fst (accumulation inputs n)
  = INR n * currentAnnualSalary inputs * (employerRate inputs + personalRate inputs)
    * (1 + investmentReturn inputs) ^ n.
Proof.
  intros Heq. induction n as [|n IH]; cbn [accumulation].
  - cbn. lra.
  - pose proof (accumulation_salary inputs n) as Hsal.
    destruct (accumulation inputs n) as [balance salary]. cbn [fst snd] in *.
    rewrite Hsal, IH, <- Heq, S_INR. cbn [pow]. ring.
Qed.

(** X10.  The balance of a returned result has the closed form of a
    growing annuity paid at the start of each year: with salary [s],
    total contribution rate [c], return [r], salary growth [g] and [n]
    years to go it is [s c (1+r) ((1+r)^n - (1+g)^n) / (r - g)] when
    [r] and [g] differ, and [n s c (1+r)^n] when they are equal. *)
Theorem projected_balance_closed_form (inputs : PlanInputs) (tables : MortalityTables)
    (res : ProjectionResult) (status : string) :
  project inputs tables = Returned (Some res, status) ->
  let s := currentAnnualSalary inputs in
  let c := employerRate inputs + personalRate inputs in
  let r := investmentReturn inputs in
  let g := salaryGrowth inputs in
  let n := Z.to_nat (retirementAge inputs - currentAge inputs) in
  (r <> g ->
   projected_balance res = s * c * (1 + r) * ((1 + r) ^ n - (1 + g) ^ n) / (r - g))
  /\ (r = g -> projected_balance res = INR n * s * c * (1 + r) ^ n).
Proof.
  intros Hres s c r g n.
  destruct (Z_le_dec (yearsToGo inputs) 0) as [Hn|Hn].
  { rewrite project_retired in Hres by assumption. discriminate. }
  destruct (project_returned inputs tables res status) as (f & extra & _ & -> & _);
    [lia | assumption |].
  cbn [projected_balance result_for]. unfold projectedBalance.
  fold (yearsToGo inputs) in n. fold n. split.
  - intros Hrg. pose proof (accumulation_closed inputs n) as Hc. cbn zeta in Hc.
    fold s c r g in Hc. rewrite <- Hc. field. lra.
  - intros Hrg. now apply accumulation_equal_rates.
Qed.

Lemma projected_balance_closed_form_witness :
  (0.1 <> 0 ->
   projected_balance last_year_result
   = 100 * (0.05 + 0.05) * (1 + 0.1) * ((1 + 0.1) ^ 1 - (1 + 0) ^ 1) / (0.1 - 0))
  /\ (0.1 = 0 ->
      projected_balance last_year_result = INR 1 * 100 * (0.05 + 0.05) * (1 + 0.1) ^ 1).
Proof.
  apply (projected_balance_closed_form last_year_plan synthetic_tables
           last_year_result "Success").
  exact projection_last_year.
Defined.

(** ** [run_simulation]: what is returned *)

(** X11.  Whatever [run_simulation] returns is one of two pairs: no
    result with the status "Already Retired", when the retirement age
    does not exceed the current age, or a result with the status
    "Success" and at least one year to go.  So the caller's test of the
    status decides whether there is a result to read. *)
Theorem return_protocol (inputs : PlanInputs) (tables : MortalityTables)
    (result : option ProjectionResult) (status : string) :
  project inputs tables = Returned (result, status) ->
  (result = None /\ status = "Already Retired"
   /\ (retirementAge inputs <= currentAge inputs)%Z)
  \/ (exists res : ProjectionResult,
        result = Some res /\ status = "Success"
        /\ (retirementAge inputs > currentAge inputs)%Z
        /\ (1 <= years_to_go res)%Z).
Proof.
  intros Hret. destruct (Z_le_dec (yearsToGo inputs) 0) as [Hn|Hn].
  - rewrite project_retired in Hret by assumption. injection Hret as <- <-.
    left. unfold yearsToGo in Hn. split; [reflexivity|]. split; [reflexivity | lia].
  - right. destruct result as [res|].
    + destruct (project_returned inputs tables res status) as (f & extra & _ & -> & -> & _);
        [lia | assumption |].
      eexists. split; [reflexivity|]. split; [reflexivity|].
      cbn [years_to_go result_for]. unfold yearsToGo in *. lia.
    + exfalso. apply project_signal in Hret as [Hle _]. contradiction.
Qed.

Lemma return_protocol_witness :
  (Some last_year_result = None /\ "Success" = "Already Retired"
   /\ (retirementAge last_year_plan <= currentAge last_year_plan)%Z)
  \/ (exists res : ProjectionResult,
        Some last_year_result = Some res /\ "Success" = "Success"
        /\ (retirementAge last_year_plan > currentAge last_year_plan)%Z
        /\ (1 <= years_to_go res)%Z).
Proof.
  apply (return_protocol last_year_plan synthetic_tables (Some last_year_result) "Success").
  exact projection_last_year.
Defined.

(** ** [run_simulation]: the advice *)











(** ** The caller *)

(** With values the form allows and a retirement age above the
    current age, the calculation returns a result, and its amounts
    are in these ranges. *)
Lemma form_success (v : Form.values) (tables : MortalityTables) :
  Form.in_ranges v ->
  (Form.current_age v < Form.retire_age v)%Z ->
  exists res : ProjectionResult,
    Form.calculation v tables = Returned (Some res, "Success")
    /\ (1 <= years_to_go res <= 60)%Z
    /\ 1 <= annuity_factor res <= 65
    /\ 0 <= nest_egg_needed res
    /\ 0 <= projected_balance res
    /\ 0 <= extra_monthly_needed res
    /\ 0 <= future_monthly_target res.
Proof.
  intros (Hgender & Hcur & Hret & Htype & Hsal & Htarget & Hemp & Hper & Hinv & Hgrow & Hinf)
         Hlt.
  unfold Form.calculation. set (inputs := Form.plan v).
  assert (Hn : (0 < yearsToGo inputs)%Z) by (unfold yearsToGo; cbn; lia).
  assert (Hyears : (yearsToGo inputs <= 60)%Z) by (unfold yearsToGo; cbn; lia).
  assert (Hr : 0.01 <= investmentReturn inputs <= 0.15) by (cbn; lra).
  assert (Hi : 0 <= inflation inputs <= 0.1) by (cbn; lra).
  destruct (goal_factor_returns (retirementAge inputs) (sex inputs) tables)
    as (f & Hf & _ & Hf1 & _ & Hf65); [cbn; lia|].
  assert (H1 : 1 <= f) by (apply Hf1; cbn; lia).
  assert (H65 : f <= 65).
  { assert (IZR (Z.max 0 (115 - retirementAge inputs)) <= 65)
      by (apply IZR_le; cbn; lia).
    lra. }
  assert (Hpinf : Rabs (power (1 + inflation inputs) (yearsToGo inputs)) < float_overflow)
    by (apply power_in_range; [lra | lia]).
  assert (Hpow : Rabs (power (1 + investmentReturn inputs) (yearsToGo inputs))
                 < float_overflow)
    by (apply power_in_range; [lra | lia]).
  pose proof (remediation_denominator_gains inputs Hn ltac:(lra)) as Hgains.
  assert (Hden : float_underflow < Rabs (remediation_denominator inputs)).
  { pose proof float_underflow_small. rewrite Rabs_right; lra. }
  destruct (project_cases inputs tables f Hn Hpinf Hf) as (Hle & Hgt & _).
  assert (Hsalary : 0 <= currentAnnualSalary inputs).
  { cbn. apply IZR_le. destruct (decide (Form.salary_type v = "Monthly")); lia. }
  destruct (accumulation_nonneg inputs (Z.to_nat (yearsToGo inputs)))
    as [Hbal _]; [exact Hsalary | cbn; lra | cbn; lra | cbn; lra |].
  fold (projectedBalance inputs) in Hbal.
  assert (Hinc : 0 <= futureAnnualIncome inputs).
  { unfold futureAnnualIncome. apply Rmult_le_pos.
    - apply Rmult_le_pos; [|lra]. cbn. apply IZR_le. lia.
    - apply pow_le. lra. }
  assert (Hneed : 0 <= futureAnnualIncome inputs * f) by (apply Rmult_le_pos; lra).
  set (gap := futureAnnualIncome inputs * f - projectedBalance inputs) in *.
  assert (Hshape : forall extra : R, 0 <= extra ->
            (1 <= years_to_go (result_for inputs f extra) <= 60)%Z
            /\ 1 <= annuity_factor (result_for inputs f extra) <= 65
            /\ 0 <= nest_egg_needed (result_for inputs f extra)
            /\ 0 <= projected_balance (result_for inputs f extra)
            /\ 0 <= extra_monthly_needed (result_for inputs f extra)
            /\ 0 <= future_monthly_target (result_for inputs f extra)).
  { intros extra Hextra.
    cbn [years_to_go annuity_factor nest_egg_needed projected_balance
         extra_monthly_needed future_monthly_target result_for].
    split; [lia|]. repeat split; try assumption; lra. }
  destruct (Rle_or_lt gap 0) as [Hsurplus|Hgap].
  - eexists. split; [apply Hle; exact Hsurplus|]. apply Hshape. lra.
  - eexists. split; [apply Hgt; assumption|]. apply Hshape.
    apply Rmult_le_pos; [|lra].
    apply Rmult_le_pos; [|apply Rlt_le, Rinv_0_lt_compat; lra].
    apply Rmult_le_pos; lra.
Qed.

(** X15.  For every combination of values the form allows, and any
    pair of tables, the calculation raises nothing.  It returns the
    "Already Retired" status when the retirement age does not exceed
    the current age, and otherwise a result with 1 to 60 years to go,
    an annuity factor between 1 and 65, and amounts (need, balance,
    extra contribution, future target) that are not negative. *)
Theorem form_calculation_safe (v : Form.values) (tables : MortalityTables) :
  Form.in_ranges v ->
  ((Form.retire_age v <= Form.current_age v)%Z ->
   Form.calculation v tables = Returned (None, "Already Retired"))
  /\ ((Form.current_age v < Form.retire_age v)%Z ->
      exists res : ProjectionResult,
        Form.calculation v tables = Returned (Some res, "Success")
        /\ (1 <= years_to_go res <= 60)%Z
        /\ 1 <= annuity_factor res <= 65
        /\ 0 <= nest_egg_needed res
        /\ 0 <= projected_balance res
        /\ 0 <= extra_monthly_needed res
        /\ 0 <= future_monthly_target res).
Proof.
  intros Hranges. split.
  - intros Hle. unfold Form.calculation. apply project_retired.
    unfold yearsToGo. cbn. lia.
  - intros Hlt. now apply form_success.
Qed.

Lemma form_defaults_in_ranges : Form.in_ranges Form.defaults.
Proof.
  unfold Form.in_ranges, Form.defaults. cbn.
  repeat split; first [lia | lra | (left; reflexivity)].
Qed.

Lemma form_calculation_safe_witness :
  exists res : ProjectionResult,
    Form.calculation Form.defaults synthetic_tables = Returned (Some res, "Success")
    /\ (1 <= years_to_go res <= 60)%Z
    /\ 1 <= annuity_factor res <= 65
    /\ 0 <= nest_egg_needed res
    /\ 0 <= projected_balance res
    /\ 0 <= extra_monthly_needed res
    /\ 0 <= future_monthly_target res.
Proof.
  apply (proj2 (form_calculation_safe Form.defaults synthetic_tables
                  form_defaults_in_ranges)).
  cbn. lia.
Defined.

(** ** [format_idr]: digits, groups and rounding *)

Lemma decimal_eq (n : N) :
  decimal n = if decide (n < 10)%N then [digit n]
              else decimal (n / 10) ++ [digit (n mod 10)].
Proof.
  rewrite decimal_equation_1. destruct (decide (n < 10)%N); reflexivity.
Qed.

Lemma decimal_nonempty (n : N) : decimal n <> [].
Proof.
  rewrite decimal_eq. destruct (decide (n < 10)%N); [discriminate|].
  intros H. apply app_eq_nil in H as [_ H]. discriminate.
Qed.

Lemma decimal_digits (n : N) : Forall is_digit (decimal n).
Proof.
  induction n as [n IH] using (well_founded_induction N.lt_wf_0).
  rewrite decimal_eq. destruct (decide (n < 10)%N) as [Hlt|Hge].
  - constructor; [|constructor]. now exists n.
  - apply Forall_app. split.
    + apply IH. apply N.div_lt; lia.
    + constructor; [|constructor]. exists (n mod 10)%N. split; [div_lia | reflexivity].
Qed.

Lemma decimal_thousands (n : N) :
  (1000 <= n)%N ->
  decimal n = decimal (n / 1000)
              ++ [digit (n mod 1000 / 100); digit (n mod 100 / 10); digit (n mod 10)].
Proof.
  intros Hn.
  rewrite (decimal_eq n). destruct (decide (n < 10)%N); [lia|].
  rewrite (decimal_eq (n / 10)). destruct (decide (n / 10 < 10)%N); [div_lia|].
  rewrite (decimal_eq (n / 10 / 10)). destruct (decide (n / 10 / 10 < 10)%N); [div_lia|].
  rewrite <- !app_assoc. cbn [app].
  replace (n / 10 / 10 / 10)%N with (n / 1000)%N by div_lia.
  replace ((n / 10 / 10) mod 10)%N with (n mod 1000 / 100)%N by div_lia.
  replace ((n / 10) mod 10)%N with (n mod 100 / 10)%N by div_lia.
  reflexivity.
Qed.

(** A property of the ten digits follows from its ten instances. *)
Lemma digit_cases (d : N) (P : N -> Prop) :
  (d < 10)%N ->
  P 0%N -> P 1%N -> P 2%N -> P 3%N -> P 4%N -> P 5%N -> P 6%N -> P 7%N -> P 8%N -> P 9%N ->
  P d.
Proof.
  intros Hd.
  assert (Hcases : d = 0%N \/ d = 1%N \/ d = 2%N \/ d = 3%N \/ d = 4%N \/ d = 5%N
                   \/ d = 6%N \/ d = 7%N \/ d = 8%N \/ d = 9%N) by lia.
  intros; repeat (destruct Hcases as [->|Hcases]; [assumption|]). now subst d.
Qed.

Lemma digit_not_comma (d : N) : (d < 10)%N -> digit d <> ","%char.
Proof. intros Hd. apply (digit_cases d (fun d => digit d <> ","%char) Hd); discriminate. Qed.

Lemma digit_not_minus (d : N) : (d < 10)%N -> digit d <> "-"%char.
Proof. intros Hd. apply (digit_cases d (fun d => digit d <> "-"%char) Hd); discriminate. Qed.

Lemma digit_value_digit (d : N) : (d < 10)%N -> digit_value (digit d) = Some d.
Proof.
  intros Hd. apply (digit_cases d (fun d => digit_value (digit d) = Some d) Hd); reflexivity.
Qed.

Lemma separate_digit (d : N) : (d < 10)%N -> separate (digit d) = digit d.
Proof.
  intros Hd. unfold separate. destruct (decide (digit d = ","%char)) as [Heq|]; [|reflexivity].
  now apply digit_not_comma in Heq.
Qed.

Lemma separate_digits (l : list ascii) : Forall is_digit l -> map separate l = l.
Proof.
  induction 1 as [|c l (d & Hd & ->) _ IH]; [reflexivity|].
  cbn [map]. rewrite separate_digit by assumption. now rewrite IH.
Qed.

Lemma replace_char_separate (s : list ascii) :
  replace_char ","%char "."%char s = map separate s.
Proof. reflexivity. Qed.

(** *** Groups of three *)

Lemma group_reversed_four (a b c x : ascii) (rest : list ascii) :
  group_reversed (a :: b :: c :: x :: rest)
  = a :: b :: c :: ","%char :: group_reversed (x :: rest).
Proof. reflexivity. Qed.

Lemma group_append_three (ds : list ascii) (a b c : ascii) :
  ds <> [] ->
  group_thousands (ds ++ [a; b; c]) = group_thousands ds ++ [","%char; a; b; c].
Proof.
  intros Hds. unfold group_thousands. rewrite rev_app_distr. cbn [rev app].
  destruct (rev ds) as [|x xs] eqn:Hrev.
  - exfalso. apply Hds. apply (f_equal (@rev ascii)) in Hrev.
    rewrite rev_involutive in Hrev. exact Hrev.
  - rewrite group_reversed_four. cbn [rev]. rewrite <- !app_assoc. reflexivity.
Qed.

(** Induction on a list as [group_reversed] recurses on it: up to three
    elements, or three elements before a non-empty rest. *)
Lemma group_reversed_ind (Q : list ascii -> Prop) :
  Q [] -> (forall a, Q [a]) -> (forall a b, Q [a; b]) -> (forall a b c, Q [a; b; c]) ->
  (forall a b c x rest, Q (x :: rest) -> Q (a :: b :: c :: x :: rest)) ->
  forall l : list ascii, Q l.
Proof.
  intros H0 H1 H2 H3 H4 l.
  assert (Hgen : forall (n : nat) (l : list ascii), (length l <= n)%nat -> Q l).
  { clear l. induction n as [|n IH]; intros l Hlen.
    - destruct l; [exact H0 | cbn in Hlen; lia].
    - destruct l as [|a [|b [|c [|x rest]]]]; auto.
      apply H4. apply IH. cbn in *. lia. }
  apply (Hgen (length l)). lia.
Qed.

Lemma group_reversed_chars (P : ascii -> Prop) :
  P ","%char -> forall l : list ascii, Forall P l -> Forall P (group_reversed l).
Proof.
  intros Hcomma l. induction l as [| | | |a b c x rest IH] using group_reversed_ind;
    try (intros Hl; exact Hl).
  intros Hl. rewrite group_reversed_four.
  inversion Hl as [|? ? Ha Hl1]; subst. inversion Hl1 as [|? ? Hb Hl2]; subst.
  inversion Hl2 as [|? ? Hc Hl3]; subst.
  do 3 (constructor; [assumption|]). constructor; [exact Hcomma|].
  now apply IH.
Qed.

Lemma group_reversed_nonempty (l : list ascii) : l <> [] -> group_reversed l <> [].
Proof. destruct l as [|a [|b [|c [|x rest]]]]; intros H; [contradiction | discriminate..]. Qed.

(** The grouped and separated digits are digits and dots, and there is
    a first one. *)
Lemma separated_shown (ds : list ascii) :
  Forall is_digit ds -> Forall shown (map separate (group_thousands ds)).
Proof.
  intros Hds. apply Forall_map. unfold group_thousands. apply Forall_rev.
  apply (group_reversed_chars (fun c => shown (separate c))).
  - right. reflexivity.
  - apply Forall_rev. eapply Forall_impl; [exact Hds|].
    intros c (d & Hd & ->). left. rewrite separate_digit by assumption. now exists d.
Qed.

Lemma separated_nonempty (ds : list ascii) :
  ds <> [] -> map separate (group_thousands ds) <> [].
Proof.
  intros Hne Heq. apply map_eq_nil in Heq. unfold group_thousands in Heq.
  apply (f_equal (@rev ascii)) in Heq. rewrite rev_involutive in Heq. cbn [rev] in Heq.
  apply group_reversed_nonempty in Heq; [exact Heq|].
  intros Hrev. apply Hne. apply (f_equal (@rev ascii)) in Hrev.
  now rewrite rev_involutive in Hrev.
Qed.

(** *** Rounding *)

Lemma Int_part_IZR (z : Z) : Int_part (IZR z) = z.
Proof.
  unfold Int_part. rewrite <- (tech_up (IZR z) (z + 1)); [lia | |].
  - rewrite plus_IZR. lra.
  - rewrite plus_IZR. lra.
Qed.

Lemma round_half_even_IZR (z : Z) : round_half_even (IZR z) = z.
Proof.
  unfold round_half_even, frac_part. rewrite Int_part_IZR.
  destruct (Rlt_dec (IZR z - IZR z) (1 / 2)); [reflexivity | lra].
Qed.

Lemma round_half_even_near (x : R) :
  Rabs (x - IZR (round_half_even x)) <= 1 / 2
  /\ (Rabs (x - IZR (round_half_even x)) = 1 / 2 -> Z.even (round_half_even x) = true).
Proof.
  unfold round_half_even.
  pose proof (base_fp x) as [Hf0 Hf1].
  assert (Hx : x = IZR (Int_part x) + frac_part x) by (unfold frac_part; lra).
  set (n := Int_part x) in *. set (f := frac_part x) in *.
  destruct (Rlt_dec f (1 / 2)) as [Hlo|Hnlo].
  - split.
    + rewrite Rabs_right; lra.
    + rewrite Rabs_right; lra.
  - destruct (Rlt_dec (1 / 2) f) as [Hhi|Hnhi].
    + rewrite plus_IZR. split.
      * rewrite Rabs_left; lra.
      * rewrite Rabs_left; lra.
    + assert (Hhalf : f = 1 / 2) by lra.
      destruct (Z.even n) eqn:Heven.
      * split; [rewrite Rabs_right; lra | intros _; exact Heven].
      * rewrite plus_IZR. split; [rewrite Rabs_left; lra|].
        intros _. rewrite Z.even_add, Heven. reflexivity.
Qed.

Lemma round_half_even_nonneg (x : R) : 0 <= x -> (0 <= round_half_even x)%Z.
Proof.
  intros Hx. pose proof (base_fp x) as [Hf0 Hf1].
  assert (Hn : (0 <= Int_part x)%Z).
  { apply le_IZR. unfold frac_part in *.
    destruct (Z_le_dec 0 (Int_part x)) as [H|H]; [now apply IZR_le|].
    assert (IZR (Int_part x) <= -1) by (apply IZR_le; lia). lra. }
  unfold round_half_even.
  destruct (Rlt_dec _ _); [exact Hn|]. destruct (Rlt_dec _ _); [lia|].
  destruct (Z.even _); lia.
Qed.

Lemma Int_part_unit (y : R) : 0 <= y < 1 -> Int_part y = 0%Z.
Proof.
  intros Hy. unfold Int_part. rewrite <- (tech_up y 1); [reflexivity | lra | lra].
Qed.

Lemma round_half_even_small (y : R) : 0 <= y <= 1 / 2 -> round_half_even y = 0%Z.
Proof.
  intros Hy. unfold round_half_even, frac_part. rewrite Int_part_unit by lra.
  destruct (Rlt_dec _ _); [reflexivity|]. destruct (Rlt_dec _ _); [lra | reflexivity].
Qed.

(** *** The formatted amount *)

Lemma format_idr_nonneg (x : R) :
  0 <= x ->
  format_idr x
  = rp ++ map separate (group_thousands (decimal (Z.to_N (round_half_even x)))).
Proof.
  intros Hx. unfold format_idr, format_comma_0f.
  destruct (Rlt_dec x 0); [lra|]. rewrite Rabs_right by lra. reflexivity.
Qed.

Lemma format_idr_whole (z : Z) :
  (0 <= z)%Z ->
  format_idr (IZR z) = rp ++ map separate (group_thousands (decimal (Z.to_N z))).
Proof.
  intros Hz. rewrite format_idr_nonneg by (now apply IZR_le).
  now rewrite round_half_even_IZR.
Qed.

Lemma format_idr_negative_shape (x : R) :
  x < 0 ->
  format_idr x = rp ++ "-"%char :: skipn 3 (format_idr (- x)).
Proof.
  intros Hx. unfold format_idr, format_comma_0f.
  destruct (Rlt_dec x 0); [|lra]. destruct (Rlt_dec (- x) 0); [lra|].
  rewrite Rabs_Ropp. reflexivity.
Qed.

Lemma format_idr_unsigned (x : R) : 0 <= x -> unsigned (format_idr x).
Proof.
  intros Hx. rewrite format_idr_nonneg by assumption.
  eexists. split; [reflexivity|]. apply separated_shown, decimal_digits.
Qed.

(** X16.  A whole amount from 0 to 999 is shown as "Rp " followed by
    its one, two or three decimal digits, without separator and
    without leading zero. *)
Theorem format_idr_below_1000 (z : Z) :
  (0 <= z < 1000)%Z ->
  format_idr (IZR z)
  = rp ++ (if decide (z < 10)%Z then [digit (Z.to_N z)]
           else if decide (z < 100)%Z
                then [digit (Z.to_N (z / 10)); digit (Z.to_N (z mod 10))]
                else [digit (Z.to_N (z / 100)); digit (Z.to_N (z mod 100 / 10));
                      digit (Z.to_N (z mod 10))]).
Proof.
  intros Hz. rewrite format_idr_whole by lia. f_equal.
  destruct (decide (z < 10)%Z) as [H10|H10]; [|destruct (decide (z < 100)%Z) as [H100|H100]].
  - rewrite decimal_eq. destruct (decide (Z.to_N z < 10)%N); [|lia].
    unfold group_thousands. cbn [rev app group_reversed map].
    now rewrite separate_digit by lia.
  - rewrite decimal_eq. destruct (decide (Z.to_N z < 10)%N); [lia|].
    rewrite decimal_eq. destruct (decide (Z.to_N z / 10 < 10)%N); [|div_lia].
    unfold group_thousands. cbn [rev app group_reversed map].
    rewrite !separate_digit by div_lia.
    replace (Z.to_N z / 10)%N with (Z.to_N (z / 10)) by div_lia.
    replace (Z.to_N z mod 10)%N with (Z.to_N (z mod 10)) by div_lia.
    reflexivity.
  - rewrite decimal_eq. destruct (decide (Z.to_N z < 10)%N); [lia|].
    rewrite decimal_eq. destruct (decide (Z.to_N z / 10 < 10)%N); [div_lia|].
    rewrite decimal_eq. destruct (decide (Z.to_N z / 10 / 10 < 10)%N); [|div_lia].
    unfold group_thousands. cbn [rev app group_reversed map].
    rewrite !separate_digit by div_lia.
    replace (Z.to_N z / 10 / 10)%N with (Z.to_N (z / 100)) by div_lia.
    replace ((Z.to_N z / 10) mod 10)%N with (Z.to_N (z mod 100 / 10)) by div_lia.
    replace (Z.to_N z mod 10)%N with (Z.to_N (z mod 10)) by div_lia.
    reflexivity.
Qed.

Lemma format_idr_below_1000_witness :
  format_idr 999 = String.list_ascii_of_string "Rp 999".
Proof.
  rewrite (format_idr_below_1000 999) by lia. reflexivity.
Defined.

(** X17.  A whole amount from 1000 to [2^53], the whole amounts that
    the floats all have, is shown as the amount of its thousands, then
    a dot, then the three digits of the rest: the separator is a dot,
    every group after the first has exactly three digits, zeros
    included. *)
Theorem format_idr_thousands (z : Z) :
  (1000 <= z <= 2 ^ 53)%Z ->
  format_idr (IZR z)
  = format_idr (IZR (z / 1000))
    ++ ["."%char; digit (Z.to_N (z mod 1000 / 100)); digit (Z.to_N (z mod 100 / 10));
        digit (Z.to_N (z mod 10))].
Proof.
  intros Hz.
  rewrite (format_idr_whole z) by lia.
  rewrite (format_idr_whole (z / 1000)) by div_lia.
  rewrite decimal_thousands by lia.
  rewrite group_append_three by apply decimal_nonempty.
  rewrite map_app, <- app_assoc.
  replace (Z.to_N z / 1000)%N with (Z.to_N (z / 1000)) by div_lia.
  do 2 f_equal. cbn [map].
  rewrite !separate_digit by div_lia.
  replace (Z.to_N z mod 1000 / 100)%N with (Z.to_N (z mod 1000 / 100)) by div_lia.
  replace (Z.to_N z mod 100 / 10)%N with (Z.to_N (z mod 100 / 10)) by div_lia.
  replace (Z.to_N z mod 10)%N with (Z.to_N (z mod 10)) by div_lia.
  reflexivity.
Qed.

(** The example of the docstring. *)
Lemma format_idr_thousands_witness :
  format_idr 1000000 = String.list_ascii_of_string "Rp 1.000.000".
Proof.
  rewrite (format_idr_thousands 1000000) by (split; [lia | discriminate]).
  change (1000000 / 1000)%Z with 1000%Z.
  rewrite (format_idr_thousands 1000) by (split; [lia | discriminate]).
  change (1000 / 1000)%Z with 1%Z.
  rewrite (format_idr_whole 1) by lia.
  rewrite decimal_eq. reflexivity.
Defined.

(** X18.  An amount that is not negative is shown as a whole amount
    at most one half away from it; when two whole amounts are equally
    near, it is the even one (2.5 is shown as 2, 3.5 as 4). *)
Theorem format_idr_rounding (x : R) :
  0 <= x ->
  exists z : Z,
    (0 <= z)%Z
    /\ format_idr x = format_idr (IZR z)
    /\ Rabs (x - IZR z) <= 1 / 2
    /\ (Rabs (x - IZR z) = 1 / 2 -> Z.even z = true).
Proof.
  intros Hx. exists (round_half_even x).
  pose proof (round_half_even_nonneg x Hx) as Hz.
  split; [exact Hz|]. split; [|apply round_half_even_near].
  now rewrite format_idr_nonneg, format_idr_whole.
Qed.

Lemma format_idr_rounding_witness :
  format_idr (5 / 2) = String.list_ascii_of_string "Rp 2".
Proof.
  destruct (format_idr_rounding (5 / 2)) as (z & Hz & -> & Hnear & Htie); [lra|].
  assert (Hcases : z = 2%Z \/ z = 3%Z).
  { assert (H2 : IZR 2 <= IZR z).
    { destruct (Rcase_abs (5 / 2 - IZR z)) as [Hneg|Hpos].
      - lra.
      - rewrite Rabs_right in Hnear by assumption. lra. }
    assert (H3 : IZR z <= IZR 3).
    { destruct (Rcase_abs (5 / 2 - IZR z)) as [Hneg|Hpos].
      - rewrite Rabs_left in Hnear by assumption. lra.
      - lra. }
    apply le_IZR in H2, H3. lia. }
  destruct Hcases as [-> | ->].
  - rewrite (format_idr_whole 2) by lia. rewrite decimal_eq. reflexivity.
  - exfalso. assert (Heven : Z.even 3 = true).
    { apply Htie. rewrite Rabs_left by lra. lra. }
    discriminate Heven.
Defined.

(** X19.  A negative amount is shown with a minus sign between "Rp "
    and the digits of its magnitude; a negative amount that rounds to
    zero (down to one half below zero) is shown as "Rp -0". *)
Theorem format_idr_negative (x : R) :
  x < 0 ->
  format_idr x = rp ++ "-"%char :: skipn 3 (format_idr (- x))
  /\ (- (1 / 2) <= x -> format_idr x = String.list_ascii_of_string "Rp -0").
Proof.
  intros Hx. split; [now apply format_idr_negative_shape|].
  intros Hhalf. unfold format_idr, format_comma_0f.
  destruct (Rlt_dec x 0); [|lra].
  rewrite round_half_even_small by (rewrite Rabs_left; lra).
  rewrite decimal_eq. reflexivity.
Qed.

Lemma format_idr_negative_witness :
  format_idr (- (1 / 4)) = String.list_ascii_of_string "Rp -0".
Proof.
  apply (format_idr_negative (- (1 / 4))); lra.
Defined.

(** X20.  Every amount that is a number, and not the negative zero of
    the floats, is shown as "Rp ", then a minus sign exactly when the
    amount is negative, then at least one character, all of them
    decimal digits and dots: no comma is left, and there is no
    fractional part.  (The reals of the model are such amounts; nan,
    the infinities and the negative zero are not among them.) *)
Theorem format_idr_characters (x : R) :
  exists body : list ascii,
    body <> [] /\ Forall shown body
    /\ format_idr x = rp ++ (if Rlt_dec x 0 then ["-"%char] else []) ++ body.
Proof.
  exists (map separate (group_thousands (decimal (Z.to_N (round_half_even (Rabs x)))))).
  split; [apply separated_nonempty, decimal_nonempty|].
  split; [apply separated_shown, decimal_digits|].
  unfold format_idr, format_comma_0f. rewrite replace_char_separate.
  destruct (Rlt_dec x 0); cbn [map app]; reflexivity.
Qed.

(** *** Reading the amount back *)

Lemma read_char_digit (acc d : N) :
  (d < 10)%N -> read_char acc (digit d) = (10 * acc + d)%N.
Proof. intros Hd. unfold read_char. now rewrite digit_value_digit. Qed.

Lemma read_char_dot (acc : N) : read_char acc "."%char = acc.
Proof. reflexivity. Qed.

Lemma read_decimal (n : N) : read_digits (decimal n) = n.
Proof.
  unfold read_digits.
  induction n as [n IH] using (well_founded_induction N.lt_wf_0).
  rewrite decimal_eq. destruct (decide (n < 10)%N) as [Hlt|Hge].
  - cbn [fold_left]. rewrite read_char_digit by assumption. lia.
  - rewrite fold_left_app. cbn [fold_left].
    rewrite IH by (apply N.div_lt; lia).
    rewrite read_char_digit by div_lia. div_lia.
Qed.

Lemma read_grouped (acc : N) (l : list ascii) :
  Forall is_digit l ->
  fold_right (fun c a => read_char a c) acc (map separate (group_reversed l))
  = fold_right (fun c a => read_char a c) acc l.
Proof.
  induction l as [| | | |a b c x rest IH] using group_reversed_ind;
    try (intros Hl; cbn [group_reversed]; now rewrite separate_digits).
  intros Hl. rewrite group_reversed_four.
  inversion Hl as [|? ? Ha Hl1]; subst. inversion Hl1 as [|? ? Hb Hl2]; subst.
  inversion Hl2 as [|? ? Hc Hl3]; subst.
  destruct Ha as (da & Hda & ->), Hb as (db & Hdb & ->), Hc as (dc & Hdc & ->).
  cbn [map fold_right]. rewrite !separate_digit by assumption.
  change (separate ","%char) with "."%char. rewrite read_char_dot.
  now rewrite IH.
Qed.

Lemma read_group_thousands (ds : list ascii) :
  Forall is_digit ds ->
  read_digits (map separate (group_thousands ds)) = read_digits ds.
Proof.
  intros Hds. unfold read_digits, group_thousands.
  rewrite map_rev, <- fold_left_rev_right, rev_involutive.
  rewrite read_grouped by (now apply Forall_rev).
  apply fold_left_rev_right.
Qed.

Lemma read_idr_unsigned (c : ascii) (rest : list ascii) :
  c <> "-"%char -> read_idr (rp ++ c :: rest) = Z.of_N (read_digits (c :: rest)).
Proof.
  intros Hc. unfold read_idr, rp. cbn [app]. rewrite !skipn_cons, drop_0.
  destruct c as [[] [] [] [] [] [] [] []]; try reflexivity. contradiction.
Qed.

(** A whole amount is read back from what [format_idr] makes of it. *)
Lemma read_format_idr (z : Z) : read_idr (format_idr (IZR z)) = z.
Proof.
  destruct (Z_lt_le_dec z 0) as [Hneg|Hpos].
  - rewrite format_idr_negative_shape by (apply IZR_lt; lia).
    rewrite <- opp_IZR, format_idr_whole by lia.
    unfold read_idr, rp. cbn [skipn app].
    rewrite drop_0, read_group_thousands by apply decimal_digits.
    rewrite read_decimal. lia.
  - rewrite format_idr_whole by lia.
    pose proof (separated_shown _ (decimal_digits (Z.to_N z))) as Hshown.
    pose proof (separated_nonempty _ (decimal_nonempty (Z.to_N z))) as Hne.
    pose proof (read_group_thousands _ (decimal_digits (Z.to_N z))) as Hread.
    rewrite read_decimal in Hread.
    destruct (map separate _) as [|c rest]; [contradiction|].
    rewrite read_idr_unsigned, Hread; [lia|].
    inversion Hshown as [|? ? Hc _]; subst.
    destruct Hc as [(d & Hd & ->) | ->]; [now apply digit_not_minus | discriminate].
Qed.

(** X21.  Different whole amounts between [-2^53] and [2^53], the whole
    amounts that the floats all have, are shown differently: the
    formatting loses nothing of such an amount, which can be read back
    from the digits and the sign. *)
Theorem format_idr_injective (z1 z2 : Z) :
  (Z.abs z1 <= 2 ^ 53)%Z -> (Z.abs z2 <= 2 ^ 53)%Z ->
  z1 <> z2 -> format_idr (IZR z1) <> format_idr (IZR z2).
Proof.
  intros _ _ Hne Heq. apply Hne.
  rewrite <- (read_format_idr z1), <- (read_format_idr z2). now rewrite Heq.
Qed.

Lemma format_idr_injective_witness : format_idr 1000 <> format_idr 1.
Proof.
  apply (format_idr_injective 1000 1); [discriminate | discriminate | lia].
Defined.

(** ** The page *)

(** X22.  With values the form allows and a retirement age above the
    current age, no amount on the page carries a minus sign: the
    verdict, the fund needed, the balance, the extra saving (shown with
    a positive shortfall), the income target and the future target
    are all "Rp " followed by digits and dots, and the delta of the
    balance is such an amount after a sign of its own, "-" exactly
    when the shortfall is positive. *)
Theorem display_unsigned (v : Form.values) (tables : MortalityTables) :
  Form.in_ranges v ->
  (Form.current_age v < Form.retire_age v)%Z ->
  exists res : ProjectionResult,
    Form.calculation v tables = Returned (Some res, "Success")
    /\ Forall unsigned (Display.amounts (Form.target_income v) res)
    /\ exists amount : list ascii,
         unsigned amount
         /\ Display.delta_str res
            = (if Rgt_dec (shortfall res) 0 then "-"%char else "+"%char) :: amount.
Proof.
  intros Hranges Hlt.
  destruct (form_success v tables Hranges Hlt)
    as (res & Hres & _ & _ & Hneed & Hbal & Hextra & Hfuture).
  destruct Hranges as (_ & _ & _ & _ & _ & Htarget & _).
  exists res. split; [exact Hres|]. split.
  - unfold Display.amounts, Display.verdict_amount.
    repeat first [apply Forall_app; split | apply Forall_cons; split | apply Forall_nil_2].
    + destruct (Rle_dec (shortfall res) 0).
      * apply format_idr_unsigned, Rabs_pos.
      * apply format_idr_unsigned. lra.
    + now apply format_idr_unsigned.
    + now apply format_idr_unsigned.
    + destruct (Rgt_dec (shortfall res) 0); [|apply Forall_nil_2].
      apply Forall_cons; split; [now apply format_idr_unsigned | apply Forall_nil_2].
    + apply format_idr_unsigned. now apply IZR_le.
    + now apply format_idr_unsigned.
  - unfold Display.delta_str. destruct (Rgt_dec (shortfall res) 0) as [Hgap|Hsurplus].
    + eexists. split; [|reflexivity]. apply format_idr_unsigned. lra.
    + eexists. split; [|reflexivity]. apply format_idr_unsigned, Rabs_pos.
Qed.

Lemma display_unsigned_witness :
  exists res : ProjectionResult,
    Form.calculation Form.defaults synthetic_tables = Returned (Some res, "Success")
    /\ Forall unsigned (Display.amounts (Form.target_income Form.defaults) res)
    /\ exists amount : list ascii,
         unsigned amount
         /\ Display.delta_str res
            = (if Rgt_dec (shortfall res) 0 then "-"%char else "+"%char) :: amount.
Proof.
  apply (display_unsigned Form.defaults synthetic_tables form_defaults_in_ranges).
  cbn. lia.
Defined.
